(** * cmalib: a linear ("arena") allocator over a chain of blocks

    Shallow embedding of [include/cma/cmalib.h] and a verification of its
    allocation, growth and rollback behaviour.

    Platform model.  [std::size_t] and [std::uintptr_t] are 64-bit unsigned
    integers; they are represented by [Z] with the wrap-around written out
    ([wrap]).  Addresses are flat 64-bit numbers, pointer arithmetic is
    arithmetic on them, and [alignof(std::max_align_t)] is 16 (LP64).

    Block objects live in a store indexed by handles: a [block*] is an
    [option nat] ([None] is [nullptr]).  The address that [::operator new]
    hands out for a block's storage is not determined by the program; every
    operation that may reach [new block(..)] takes the answer of the system
    allocator as an argument ([None]: the system allocator fails). *)

From stdpp Require Import base option gmap fin_maps.
From Stdlib Require Import ZArith Lia.

Local Open Scope Z_scope.

(** ** Machine integers *)

Definition SIZE_BITS : Z := 64.
Definition wrap (x : Z) : Z := x mod 2 ^ SIZE_BITS.

(** [alignof(std::max_align_t)] *)
Definition max_align : Z := 16.

(** ** namespace impl *)

(** [std::has_single_bit]: exactly one bit of the unsigned value is set. *)
Definition has_single_bit (x : Z) : bool :=
  negb (x =? 0) && (Z.land x (x - 1) =? 0).

Definition is_pow_2 (x : Z) : bool := has_single_bit x.

Definition align_up (p alignment : Z) : Z :=
  let addr := p in
  Z.land (wrap (addr + wrap (alignment - 1)))
         (wrap (Z.lnot (wrap (alignment - 1)))).

(** Returns the overflow flag and the value stored through [res]. *)
Definition overflow_addition (a b : Z) : bool * Z :=
  let res := wrap (a + b) in (res <? a, res).

(** ** Blocks, markers and the arena *)

Record block := Block {
  data : Z;
  cur : Z;
  end_ : Z;
  next : option nat;
  capacity : Z
}.

Record marker := Marker {
  mem : option nat;
  m_cur : Z
}.

(** The arena object together with the block objects it points into.
    [fresh] is the handle the next [new block] will receive. *)
Record arena := Arena {
  heap : gmap nat block;
  fresh : nat;
  _block_size : Z;
  _head : option nat;
  _active : option nat
}.

Definition set_cur (c : Z) (b : block) : block :=
  Block (data b) c (end_ b) (next b) (capacity b).
Definition set_next (n : option nat) (b : block) : block :=
  Block (data b) (cur b) (end_ b) n (capacity b).

Definition set_heap (h : gmap nat block) (a : arena) : arena :=
  Arena h (fresh a) (_block_size a) (_head a) (_active a).
Definition set_active (p : option nat) (a : arena) : arena :=
  Arena (heap a) (fresh a) (_block_size a) (_head a) p.
Definition set_head (p : option nat) (a : arena) : arena :=
  Arena (heap a) (fresh a) (_block_size a) p (_active a).

(** ** Outcomes of a member function call *)

Inductive exn :=
  | bad_alloc
  | ctor_failure (e : nat).

Inductive outcome (A : Type) :=
  | Ret (v : A) (s : arena)      (* normal return *)
  | Throw (e : exn) (s : arena)  (* exception leaves the call *)
  | Undef                        (* null or dangling block dereferenced *)
  | Diverge.                     (* a loop did not finish *)
Arguments Ret {A} v s.
Arguments Throw {A} e s.
Arguments Undef {A}.
Arguments Diverge {A}.

Definition M (A : Type) : Type := arena → outcome A.

Definition ret {A} (v : A) : M A := λ s, Ret v s.
Definition throw {A} (e : exn) : M A := λ s, Throw e s.
Definition bind {A B} (m : M A) (k : A → M B) : M B :=
  λ s, match m s with
       | Ret v s' => k v s'
       | Throw e s' => Throw e s'
       | Undef => Undef
       | Diverge => Diverge
       end.

Declare Scope cma_scope.
Delimit Scope cma_scope with cma.
Notation "'let*' x ':=' m 'in' k" := (bind m (λ x, k))
  (at level 10, x name, m at level 100, k at level 200) : cma_scope.
Notation "m ';;' k" := (bind m (λ _, k))
  (at level 100, k at level 200, right associativity) : cma_scope.
Local Open Scope cma_scope.

(** [*p] for a block pointer [p]. *)
Definition deref (p : option nat) : M block :=
  λ s, match p with
       | None => Undef
       | Some i => match heap s !! i with
                   | None => Undef
                   | Some b => Ret b s
                   end
       end.

(** [p->field = ..] through a block pointer [p]. *)
Definition modify (p : option nat) (f : block → block) : M unit :=
  let* b := deref p in
  λ s, match p with
       | None => Undef
       | Some i => Ret tt (set_heap (<[i := f b]> (heap s)) s)
       end.

Definition get_active : M (option nat) := λ s, Ret (_active s) s.
Definition get_head : M (option nat) := λ s, Ret (_head s) s.
Definition put_active (p : option nat) : M unit := λ s, Ret tt (set_active p s).
Definition put_head (p : option nat) : M unit := λ s, Ret tt (set_head p s).
Definition get_block_size : M Z := λ s, Ret (_block_size s) s.

(** [new block(bytes)]: the constructor of [block]. *)
Definition new_block (sys : option Z) (bytes : Z) : M (option nat) :=
  λ s, match sys with
       | None => Throw bad_alloc s
       | Some d =>
           let b := Block d d (wrap (d + bytes)) None bytes in
           Ret (Some (fresh s))
               (Arena (<[fresh s := b]> (heap s)) (S (fresh s))
                      (_block_size s) (_head s) (_active s))
       end.

(** ** class arena *)

(** [arena::arena(initial_block_size)] *)
Definition arena_ctor (sys : option Z) (initial_block_size : Z) : outcome unit :=
  let block_size := Z.max initial_block_size 1024 in
  match new_block sys block_size (Arena ∅ 0 block_size None None) with
  | Ret h s => Ret tt (set_active h (set_head h s))
  | Throw e s => Throw e s
  | Undef => Undef
  | Diverge => Diverge
  end.

Definition try_alloc_at_active (bytes alignment : Z) : M Z :=
  let* a := get_active in
  let* b := deref a in
  let aligned := align_up (cur b) alignment in
  if wrap (end_ b - aligned) <? bytes then ret 0
  else modify a (set_cur (wrap (aligned + bytes)));; ret aligned.

(** The alignment [allocate_bytes] works with after its correction step. *)
Definition effective_alignment (alignment : Z) : Z :=
  if (alignment =? 0) || negb (is_pow_2 alignment) then max_align else alignment.

Definition allocate_bytes (sys : option Z) (bytes alignment : Z) : M Z :=
  if bytes =? 0 then ret 0 else
  let alignment := effective_alignment alignment in
  let* p := try_alloc_at_active bytes alignment in
  if negb (p =? 0) then ret p else
  let '(overflow, need) := overflow_addition bytes alignment in
  if overflow then throw bad_alloc else
  let* a := get_active in
  let* ab := deref a in
  let new_cap := Z.max (wrap (capacity ab * 2)) need in
  let* block_size := get_block_size in
  let new_cap := Z.max new_cap block_size in
  let* b := new_block sys new_cap in
  modify b (set_next None);;
  let* a := get_active in
  modify a (set_next b);;
  put_active b;;
  let* p := try_alloc_at_active bytes alignment in
  if negb (p =? 0) then ret p else
  throw bad_alloc.

Definition create_marker : M marker :=
  let* a := get_active in
  match a with
  | Some _ => let* b := deref a in ret (Marker a (cur b))
  | None => ret (Marker a 0)
  end.

(** The [for] loop of [rollback_to]; [fuel] bounds the number of
    iterations, and running out of it is reported as [Diverge]. *)
Fixpoint rollback_loop (fuel : nat) (b : option nat) : M unit :=
  match b with
  | None => ret tt
  | Some _ =>
      match fuel with
      | O => λ _, Diverge
      | S fuel' =>
          let* blk := deref b in
          modify b (set_cur (data blk));;
          let* blk := deref b in
          rollback_loop fuel' (next blk)
      end
  end.

Definition rollback_to (m : marker) : M unit :=
  match mem m with
  | None => ret tt
  | Some _ =>
      put_active (mem m);;
      let* a := get_active in
      modify a (set_cur (m_cur m));;
      let* ab := deref a in
      λ s, rollback_loop (fresh s) (next ab) s
  end.

(** [arena::make<T>(args...)]: [sizeof_T] and [alignof_T] describe [T];
    [ctor] is the placement-new initialisation at the given address, which
    either completes ([None]) or throws ([Some e]). *)
Definition make (sys : option Z) (sizeof_T alignof_T : Z)
    (ctor : Z → option nat) : M Z :=
  let* m := create_marker in
  let* memory := allocate_bytes sys sizeof_T alignof_T in
  match ctor memory with
  | None => ret memory
  | Some e => rollback_to m;; throw (ctor_failure e)
  end.

(** [delete curr] for a block pointer. *)
Definition delete_block (p : option nat) : M unit :=
  let* _ := deref p in
  λ s, match p with
       | None => Undef
       | Some i => Ret tt (set_heap (delete i (heap s)) s)
       end.

Fixpoint free_loop (fuel : nat) (curr : option nat) : M unit :=
  match curr with
  | None => ret tt
  | Some _ =>
      match fuel with
      | O => λ _, Diverge
      | S fuel' =>
          let* blk := deref curr in
          let nxt := next blk in
          delete_block curr;;
          free_loop fuel' nxt
      end
  end.

Definition free_all : M unit :=
  let* h := get_head in
  (λ s, free_loop (fresh s) h s);;
  put_head None;;
  put_active None.

(** * Vocabulary of the specification *)

(** ** The chain of blocks *)

(** [nxt h i] is [i->next] in the store [h]. *)
Definition nxt (h : gmap nat block) (i : nat) : option nat :=
  h !! i ≫= next.

(** [after h i j]: block [j] is reachable from block [i] by one or more
    [next] links. *)
Inductive after (h : gmap nat block) : nat → nat → Prop :=
  | after_next i j : nxt h i = Some j → after h i j
  | after_trans i k j : nxt h i = Some k → after h k j → after h i j.

(** [from h p j]: block [j] is met when walking the chain that starts at
    the pointer [p] (the block [p] points to included). *)
Definition from (h : gmap nat block) (p : option nat) (j : nat) : Prop :=
  p = Some j ∨ ∃ k, p = Some k ∧ after h k j.

(** The handles of the chain that starts at [p], in order. *)
Fixpoint chain (fuel : nat) (h : gmap nat block) (p : option nat) : list nat :=
  match p, fuel with
  | Some i, S fuel' => i :: chain fuel' h (nxt h i)
  | _, _ => []
  end.

(** ** Structural invariant

    Handles are issued in increasing order and a [next] link always leads
    to a live block with a larger handle than its source, so chains are
    finite; [_head] and [_active] point to live blocks. *)

Definition link_ok (h : gmap nat block) (n : nat) (i : nat) (b : block) : Prop :=
  (i < n)%nat ∧
  match next b with
  | None => True
  | Some j => (i < j)%nat ∧ is_Some (h !! j)
  end.

Definition links_ok (h : gmap nat block) (n : nat) : Prop :=
  map_Forall (link_ok h n) h.

Definition live (h : gmap nat block) (p : option nat) : Prop :=
  is_Some (p ≫= λ i, h !! i).

Definition wf (s : arena) : Prop :=
  links_ok (heap s) (fresh s) ∧ live (heap s) (_head s) ∧ live (heap s) (_active s).

(** A marker that was taken from this arena: it names one of its blocks. *)
Definition marker_in (s : arena) (m : marker) : Prop :=
  live (heap s) (mem m).

(** [cursor_variant h h']: the stores [h] and [h'] hold the same blocks,
    which differ at most in their cursors: [data], [end], [next] and
    [capacity] of every block agree. *)
Definition cursor_variant (h h' : gmap nat block) : Prop :=
  ∀ j, match h !! j with
       | None => h' !! j = None
       | Some bj => ∃ c, h' !! j = Some (set_cur c bj)
       end.

#[global] Instance link_ok_dec h n i b : Decision (link_ok h n i b).
Proof. unfold link_ok. destruct (next b); apply _. Defined.

#[global] Instance wf_dec s : Decision (wf s).
Proof. unfold wf, links_ok, live. apply _. Defined.

#[global] Instance marker_in_dec s m : Decision (marker_in s m).
Proof. unfold marker_in, live. apply _. Defined.

(** ** Growth *)

(** What [allocate_bytes] does once the first attempt at the active block
    has returned null: the rest of its body. *)
Definition grow_path (sys : option Z) (bytes alignment : Z) : M Z :=
  let '(overflow, need) := overflow_addition bytes alignment in
  if overflow then throw bad_alloc else
  let* a := get_active in
  let* ab := deref a in
  let new_cap := Z.max (wrap (capacity ab * 2)) need in
  let* block_size := get_block_size in
  let new_cap := Z.max new_cap block_size in
  let* b := new_block sys new_cap in
  modify b (set_next None);;
  let* a := get_active in
  modify a (set_next b);;
  put_active b;;
  let* p := try_alloc_at_active bytes alignment in
  if negb (p =? 0) then ret p else
  throw bad_alloc.

(** The arena right after a new block of capacity [nc] at address [d] has
    been linked behind the active block [a] and made active. *)
Definition grown (s : arena) (a : nat) (ab : block) (d nc : Z) : arena :=
  Arena (<[a := set_next (Some (fresh s)) ab]>
           (<[fresh s := Block d d (wrap (d + nc)) None nc]> (heap s)))
        (S (fresh s)) (_block_size s) (_head s) (Some (fresh s)).

(** Two states of a block that describe the same storage. *)
Definition same_storage (b b' : block) : Prop :=
  data b' = data b ∧ end_ b' = end_ b ∧ capacity b' = capacity b.

(** [extends s s']: [s'] still has every block of [s], each with the
    [data], [end] and [capacity] it had; no handle is reissued; and
    [_head] and the growth seed are the same. *)
Definition extends (s s' : arena) : Prop :=
  (fresh s ≤ fresh s')%nat
  ∧ (∀ i b, heap s !! i = Some b →
       ∃ b', heap s' !! i = Some b' ∧ same_storage b b')
  ∧ _head s' = _head s
  ∧ _block_size s' = _block_size s.

Definition power_of_two (x : Z) : Prop := ∃ k, 0 ≤ k ∧ x = 2 ^ k.

(** The arenas a call of [allocate_bytes] can leave behind, in terms of
    the block [b] that was active (handle [a]) when it was called: either
    only the cursor of [b] moved, or in addition a new block was linked
    behind [b] and made active. *)
Inductive alloc_shape (s : arena) (a : nat) (b : block) : arena → Prop :=
  | shape_bump c :
      alloc_shape s a b (set_heap (<[a := set_cur c b]> (heap s)) s)
  | shape_grow c d nc c' :
      alloc_shape s a b
        (set_heap
           (<[fresh s := Block d c' (wrap (d + nc)) None nc]>
              (heap (grown (set_heap (<[a := set_cur c b]> (heap s)) s)
                           a (set_cur c b) d nc)))
           (grown (set_heap (<[a := set_cur c b]> (heap s)) s)
                  a (set_cur c b) d nc)).

(** [m] throws no exception other than [std::bad_alloc]. *)
Definition only_bad_alloc {A} (m : M A) : Prop :=
  ∀ s e s', m s = Throw e s' → e = bad_alloc.

(** Every block of the arena is on the chain from [_head]. *)
Definition all_linked (s : arena) : Prop :=
  ∀ i, is_Some (heap s !! i) → from (heap s) (_head s) i.

(** The active block is the last block of its chain. *)
Definition active_is_tail (s : arena) : Prop :=
  ∀ a, _active s = Some a → nxt (heap s) a = None.

(** ** Reachable arenas *)

(** Arenas that a program can reach: built by the constructor and then
    driven through the public member functions.  A rollback may use any
    marker that names a block of the arena, which covers every marker
    captured earlier on this arena. *)
Inductive reachable : arena → Prop :=
  | reach_ctor sys n s :
      arena_ctor sys n = Ret tt s → reachable s
  | reach_allocate s sys bytes al p s' :
      reachable s → allocate_bytes sys bytes al s = Ret p s' → reachable s'
  | reach_allocate_throw s sys bytes al e s' :
      reachable s → allocate_bytes sys bytes al s = Throw e s' → reachable s'
  | reach_rollback s m s' :
      reachable s → marker_in s m → rollback_to m s = Ret tt s' → reachable s'
  | reach_make s sys sz al ctor p s' :
      reachable s → make sys sz al ctor s = Ret p s' → reachable s'
  | reach_make_throw s sys sz al ctor e s' :
      reachable s → make sys sz al ctor s = Throw e s' → reachable s'.

(** ** Runs served by the active block *)

(** A run of [allocate_bytes] calls during which the system allocator
    hands out nothing: every request is served by the active block. *)
Fixpoint allocate_all (reqs : list (Z * Z)) : M (list Z) :=
  match reqs with
  | [] => ret []
  | (bytes, alignment) :: rest =>
      let* p := allocate_bytes None bytes alignment in
      let* ps := allocate_all rest in
      ret (p :: ps)
  end.

(** Two arenas with the same active block in the same state. *)
Definition same_active (s s' : arena) : Prop :=
  _active s' = _active s
  ∧ ∀ a, _active s = Some a → heap s' !! a = heap s !! a.

(** ** Scenarios *)

(** Runs [m] on the arena that [arena(initial_block_size)] builds when the
    system allocator places the first block at [d0]. *)
Definition on_new_arena {A} (d0 initial_block_size : Z) (m : M A) : outcome A :=
  match arena_ctor (Some d0) initial_block_size with
  | Ret _ s => m s
  | Throw e s => Throw e s
  | Undef => Undef
  | Diverge => Diverge
  end.

(** [arena a(1025); a.allocate_bytes(1025, 1); a.allocate_bytes(1, 16);]
    with the block at address [d0]. *)
Definition fill_then_align (d0 : Z) : outcome (Z * Z) :=
  on_new_arena d0 1025
    (let* p := allocate_bytes None 1025 1 in
     let* q := allocate_bytes None 1 16 in
     ret (p, q)).

(** [arena a(1024); a.allocate_bytes(900, 8); m = a.create_marker();
    p2 = a.allocate_bytes(200, 8); a.rollback_to(m);
    q = a.allocate_bytes(200, 8);] where the system allocator places the
    three blocks at [d0], [d1] and [d2]: the marker, allocation, rollback
    and allocation of the specification's scenario B, on an arena whose
    active block has 124 bytes left. *)
Definition scenario_B (d0 d1 d2 : Z) : outcome (Z * Z) :=
  on_new_arena d0 1024
    (allocate_bytes None 900 8;;
     let* m := create_marker in
     let* p2 := allocate_bytes (Some d1) 200 8 in
     rollback_to m;;
     let* q := allocate_bytes (Some d2) 200 8 in
     ret (p2, q)).

(** [arena a(1024); a.make<T>(..)] for a [T] of size 2000 and alignment 16
    whose constructor throws, followed by [a.allocate_bytes(2000, 16)].
    The exception carries the address the constructor was run at. *)
Definition throwing_ctor (memory : Z) : option nat := Some (Z.to_nat memory).

Definition failed_make_then_allocate (d0 d1 d2 : Z) : outcome Z :=
  on_new_arena d0 1024
    (λ s, match make (Some d1) 2000 16 throwing_ctor s with
          | Throw (ctor_failure _) s' => allocate_bytes (Some d2) 2000 16 s'
          | o => o
          end).

Definition failed_make (d0 d1 : Z) : outcome Z :=
  on_new_arena d0 1024 (make (Some d1) 2000 16 throwing_ctor).

(** ** Concrete arenas *)

(** [arena a(1024)] with its block at address 4096. *)
Definition arena_1024 : arena :=
  Arena (<[0%nat := Block 4096 4096 5120 None 1024]> ∅)
        1 1024 (Some 0%nat) (Some 0%nat).

(** [arena_1024] after [allocate_bytes(900, 8)]; a marker captured here
    is [(block 0, 4996)]. *)
Definition arena_marked : arena :=
  Arena (<[0%nat := Block 4096 4996 5120 None 1024]> ∅)
        1 1024 (Some 0%nat) (Some 0%nat).

(** [arena_marked] after [allocate_bytes(200, 8)] grew it by a block at
    address 8192. *)
Definition arena_grown : arena :=
  Arena (<[1%nat := Block 8192 8392 10240 None 2048]>
           (<[0%nat := Block 4096 4996 5120 (Some 1%nat) 1024]> ∅))
        2 1024 (Some 0%nat) (Some 1%nat).

(** [arena_grown] after [rollback_to] the marker taken on [arena_marked]. *)
Definition arena_rolled_back : arena :=
  Arena (<[1%nat := Block 8192 8192 10240 None 2048]>
           (<[0%nat := Block 4096 4996 5120 (Some 1%nat) 1024]> ∅))
        2 1024 (Some 0%nat) (Some 0%nat).

(** ** class cma_resource and the destructor of arena *)

(** [arena::~arena()] *)
Definition arena_dtor : M unit := free_all.

(** [cma_resource::do_allocate]: forwards to the arena [_a] points to. *)
Definition do_allocate (sys : option Z) (bytes alignment : Z) : M Z :=
  allocate_bytes sys bytes alignment.

(** [cma_resource::do_deallocate]: the body is empty. *)
Definition do_deallocate (p bytes alignment : Z) : M unit := ret tt.

(** [cma_resource::do_is_equal]: [this == &other], on the addresses of the
    two resource objects. *)
Definition do_is_equal (this other : nat) : bool := bool_decide (this = other).

(** ** Further notions *)

(** The growth seed is at least 1024 and no block is smaller than it. *)
Definition seed_ok (s : arena) : Prop :=
  1024 ≤ _block_size s
  ∧ ∀ i b, heap s !! i = Some b → _block_size s ≤ capacity b.

(** Every block linked behind the active one is empty. *)
Definition later_empty (s : arena) : Prop :=
  ∀ a j bj, _active s = Some a → after (heap s) a j →
    heap s !! j = Some bj → cur bj = data bj.

(** One call of a public member function takes [s] to [s']. *)
Inductive step (s s' : arena) : Prop :=
  | step_allocate sys bytes al p :
      allocate_bytes sys bytes al s = Ret p s' → step s s'
  | step_allocate_throw sys bytes al e :
      allocate_bytes sys bytes al s = Throw e s' → step s s'
  | step_rollback m :
      marker_in s m → rollback_to m s = Ret tt s' → step s s'
  | step_make sys sz al ctor p :
      make sys sz al ctor s = Ret p s' → step s s'
  | step_make_throw sys sz al ctor e :
      make sys sz al ctor s = Throw e s' → step s s'.

(** Arenas built by the constructor and used through [allocate_bytes]
    only. *)
Inductive allocated_only : arena → Prop :=
  | only_ctor sys n s :
      arena_ctor sys n = Ret tt s → allocated_only s
  | only_allocate s sys bytes al p s' :
      allocated_only s → allocate_bytes sys bytes al s = Ret p s' →
      allocated_only s'
  | only_allocate_throw s sys bytes al e s' :
      allocated_only s → allocate_bytes sys bytes al s = Throw e s' →
      allocated_only s'.

(** * Proof automation *)

(** Evaluates a closed run of the model. *)
Ltac run_model := vm_compute; reflexivity.

(** Executes the first call of a sequence whose outcome [lem] states. *)
Ltac step_with lem := unfold bind at 1; rewrite lem.

(** * Bit-level facts about [impl] *)

Section Bits.

Lemma wrap_range x : 0 ≤ wrap x < 2 ^ 64.
Proof. unfold wrap, SIZE_BITS. apply Z.mod_pos_bound. lia. Qed.

Lemma wrap_small x : 0 ≤ x < 2 ^ 64 → wrap x = x.
Proof. intros H. unfold wrap, SIZE_BITS. by apply Z.mod_small. Qed.

Lemma has_single_bit_pow2 k : 0 ≤ k → has_single_bit (2 ^ k) = true.
Proof.
  intros Hk. unfold has_single_bit.
  assert (0 < 2 ^ k) by (apply Z.pow_pos_nonneg; lia).
  apply andb_true_intro; split.
  - apply negb_true_iff, Z.eqb_neq. lia.
  - apply Z.eqb_eq.
    replace (2 ^ k - 1) with (Z.ones k) by (rewrite Z.ones_equiv; lia).
    rewrite Z.land_ones by done. apply Z.mod_same. lia.
Qed.

Lemma has_single_bit_inv x :
  0 ≤ x → has_single_bit x = true → x = 2 ^ Z.log2 x.
Proof.
  intros Hx H. unfold has_single_bit in H.
  apply andb_prop in H as [Hnz Hland].
  apply negb_true_iff, Z.eqb_neq in Hnz. apply Z.eqb_eq in Hland.
  assert (Hpos : 0 < x) by lia.
  destruct (Z.log2_spec x Hpos) as [Hlo Hhi].
  pose proof (Z.log2_nonneg x) as Hk.
  destruct (decide (x = 2 ^ Z.log2 x)) as [|Hne]; [done|exfalso].
  assert (Hlog : Z.log2 (x - 1) = Z.log2 x).
  { apply Z.log2_unique; [done|]. lia. }
  assert (Hb1 : Z.testbit x (Z.log2 x) = true) by (by apply Z.bit_log2).
  assert (Hb2 : Z.testbit (x - 1) (Z.log2 x) = true).
  { rewrite <- Hlog. apply Z.bit_log2. lia. }
  assert (Hb : Z.testbit (Z.land x (x - 1)) (Z.log2 x) = true).
  { by rewrite Z.land_spec, Hb1, Hb2. }
  rewrite Hland, Z.bits_0 in Hb. done.
Qed.

Lemma is_pow_2_spec x :
  0 ≤ x → is_pow_2 x = true ↔ ∃ k, 0 ≤ k ∧ x = 2 ^ k.
Proof.
  intros Hx. unfold is_pow_2. split.
  - intros H. exists (Z.log2 x). split; [apply Z.log2_nonneg|].
    by apply has_single_bit_inv.
  - intros (k & Hk & ->). by apply has_single_bit_pow2.
Qed.

Lemma pow2_lt_64 k : 0 ≤ k → 2 ^ k < 2 ^ 64 → k < 64.
Proof. intros Hk H. apply (Z.pow_lt_mono_r_iff 2) in H; lia. Qed.

Lemma effective_alignment_pow2 al :
  0 ≤ al < 2 ^ 64 →
  ∃ k, 0 ≤ k < 64 ∧ effective_alignment al = 2 ^ k.
Proof.
  intros Hal. unfold effective_alignment.
  destruct (al =? 0) eqn:Hz; simpl.
  { exists 4. split; [lia|reflexivity]. }
  destruct (is_pow_2 al) eqn:Hp; simpl.
  - apply is_pow_2_spec in Hp as (k & Hk & ->); [|lia].
    exists k. split; [|done]. split; [done|]. apply pow2_lt_64; lia.
  - exists 4. split; [lia|reflexivity].
Qed.

(** On a power of two, [align_up] rounds the (wrapped) sum down to a
    multiple of the alignment. *)
Lemma align_up_pow2 p k :
  0 ≤ k < 64 →
  align_up p (2 ^ k) = wrap (p + (2 ^ k - 1)) / 2 ^ k * 2 ^ k.
Proof.
  intros Hk. unfold align_up.
  assert (Hp2 : 0 < 2 ^ k < 2 ^ 64).
  { split; [apply Z.pow_pos_nonneg; lia|apply Z.pow_lt_mono_r; lia]. }
  rewrite (wrap_small (2 ^ k - 1)) by lia.
  set (x := wrap (p + (2 ^ k - 1))).
  assert (Hx : 0 ≤ x < 2 ^ 64) by apply wrap_range.
  replace (2 ^ k - 1) with (Z.ones k) by (rewrite Z.ones_equiv; lia).
  unfold wrap at 1, SIZE_BITS. rewrite <- Z.land_ones by lia.
  rewrite (Z.land_comm (Z.lnot _)), Z.land_assoc.
  rewrite (Z.land_ones x 64) by lia. rewrite (Z.mod_small x) by done.
  rewrite <- Z.ldiff_land, Z.ldiff_ones_r by lia.
  rewrite Z.shiftl_mul_pow2, Z.shiftr_div_pow2 by lia. done.
Qed.

Lemma align_up_mod p k : 0 ≤ k < 64 → align_up p (2 ^ k) mod 2 ^ k = 0.
Proof.
  intros Hk. rewrite align_up_pow2 by done. apply Z.mod_mul.
  assert (0 < 2 ^ k) by (apply Z.pow_pos_nonneg; lia). lia.
Qed.

Lemma align_up_bounds p k :
  0 ≤ k < 64 → 0 ≤ p → p + 2 ^ k - 1 < 2 ^ 64 →
  p ≤ align_up p (2 ^ k) ≤ p + 2 ^ k - 1.
Proof.
  intros Hk Hp Hfit. rewrite align_up_pow2 by done.
  assert (H2 : 0 < 2 ^ k) by (apply Z.pow_pos_nonneg; lia).
  rewrite wrap_small by lia.
  pose proof (Z.div_mod (p + (2 ^ k - 1)) (2 ^ k) ltac:(lia)) as Hdm.
  pose proof (Z.mod_pos_bound (p + (2 ^ k - 1)) (2 ^ k) H2) as Hm.
  lia.
Qed.

End Bits.

(** * Properties of the structural invariant *)

Section Invariant.

Implicit Types (h : gmap nat block) (s : arena) (b : block).

Lemma live_Some h i : live h (Some i) ↔ is_Some (h !! i).
Proof. done. Qed.

Lemma live_inv h p : live h p → ∃ i b, p = Some i ∧ h !! i = Some b.
Proof.
  unfold live. intros [b Hb]. destruct p as [i|]; [|done].
  exists i, b. done.
Qed.

Lemma link_ok_mono h h' n n' i b :
  link_ok h n i b → (n ≤ n')%nat →
  (∀ j, is_Some (h !! j) → is_Some (h' !! j)) →
  link_ok h' n' i b.
Proof.
  unfold link_ok. intros [Hi Hn] Hle Hsub. split; [lia|].
  destruct (next b); [|done]. destruct Hn. auto.
Qed.

Lemma links_ok_lookup h n i b :
  links_ok h n → h !! i = Some b → link_ok h n i b.
Proof. intros H Hi. by apply (H i b). Qed.

(** Overwriting a block without touching its [next] link. *)
Lemma links_ok_update h n i b b' :
  links_ok h n → h !! i = Some b → next b' = next b →
  links_ok (<[i := b']> h) n.
Proof.
  intros H Hi Hnext.
  assert (Hsub : ∀ j, is_Some (h !! j) → is_Some (<[i := b']> h !! j)).
  { intros j Hj. apply lookup_insert_is_Some'. by right. }
  apply map_Forall_insert_2.
  - pose proof (links_ok_lookup _ _ _ _ H Hi) as [Hlt Hl].
    split; [done|]. rewrite Hnext. destruct (next b); [|done].
    destruct Hl. auto.
  - intros j x Hj. eapply link_ok_mono; [by apply (H j x)|lia|done].
Qed.

(** Linking a newly created block [n] behind block [a]. *)
Lemma links_ok_grow h n a b blk :
  links_ok h n → h !! a = Some b → next blk = None →
  links_ok (<[a := set_next (Some n) b]> (<[n := blk]> h)) (S n).
Proof.
  intros H Ha Hblk.
  pose proof (links_ok_lookup _ _ _ _ H Ha) as [Hlt _].
  set (h' := <[a := set_next (Some n) b]> (<[n := blk]> h)).
  assert (Hsub : ∀ j, is_Some (h !! j) → is_Some (h' !! j)).
  { intros j Hj. unfold h'. apply lookup_insert_is_Some'. right.
    apply lookup_insert_is_Some'. by right. }
  assert (Hn : is_Some (h' !! n)).
  { unfold h'. apply lookup_insert_is_Some'. right.
    apply lookup_insert_is_Some'. by left. }
  apply map_Forall_insert_2; [|apply map_Forall_insert_2].
  - split; [lia|]. simpl. done.
  - split; [lia|]. by rewrite Hblk.
  - intros j x Hj. eapply link_ok_mono; [by apply (H j x)|lia|done].
Qed.

Lemma set_heap_id s : set_heap (heap s) s = s.
Proof. by destruct s. Qed.

Lemma wf_update s i b b' :
  wf s → heap s !! i = Some b → next b' = next b →
  wf (set_heap (<[i := b']> (heap s)) s).
Proof.
  intros (Hl & Hh & Ha) Hi Hnext.
  assert (Hsub : ∀ p, live (heap s) p → live (<[i := b']> (heap s)) p).
  { intros p Hp. apply live_inv in Hp as (j & x & -> & Hj).
    apply live_Some, lookup_insert_is_Some'. right. by eexists. }
  split; [|split]; simpl; [by eapply links_ok_update|by apply Hsub..].
Qed.

Lemma set_cur_cur b : set_cur (cur b) b = b.
Proof. by destruct b. Qed.

Lemma cursor_variant_refl h : cursor_variant h h.
Proof.
  intros j. destruct (h !! j) as [bj|] eqn:Hj; [|done].
  exists (cur bj). by rewrite set_cur_cur.
Qed.

Lemma cursor_variant_update h i b c :
  h !! i = Some b → cursor_variant h (<[i := set_cur c b]> h).
Proof.
  intros Hi j. destruct (decide (i = j)) as [->|Hne].
  - rewrite Hi, lookup_insert_eq. by exists c.
  - rewrite lookup_insert_ne by done. apply cursor_variant_refl.
Qed.

Lemma cursor_variant_trans h1 h2 h3 :
  cursor_variant h1 h2 → cursor_variant h2 h3 → cursor_variant h1 h3.
Proof.
  intros H12 H23 j. specialize (H12 j). specialize (H23 j).
  destruct (h1 !! j) as [bj|].
  - destruct H12 as [c Hc]. rewrite Hc in H23. destruct H23 as [c' Hc'].
    exists c'. by rewrite Hc'.
  - by rewrite H12 in H23.
Qed.

Lemma cursor_variant_live h h' p : cursor_variant h h' → live h p → live h' p.
Proof.
  intros Hv Hp. apply live_inv in Hp as (i & b & -> & Hi).
  specialize (Hv i). rewrite Hi in Hv. destruct Hv as [c Hc].
  apply live_Some. by eexists.
Qed.

Lemma links_ok_cursor_variant h h' n :
  cursor_variant h h' → links_ok h n → links_ok h' n.
Proof.
  intros Hv Hl j x Hj. pose proof (Hv j) as Hvj.
  destruct (h !! j) as [bj|] eqn:Hbj; [|congruence].
  destruct Hvj as [c Hc]. rewrite Hc in Hj. injection Hj as <-.
  pose proof (links_ok_lookup _ _ _ _ Hl Hbj) as [Hlt Hn].
  split; [done|]. simpl. destruct (next bj) as [k|]; [|done].
  destruct Hn as [Hjk Hk]. split; [done|].
  by apply (cursor_variant_live h h' (Some k)).
Qed.

Lemma nxt_update h i b b' x :
  h !! i = Some b → next b' = next b → nxt (<[i := b']> h) x = nxt h x.
Proof.
  intros Hi Hnext. unfold nxt. destruct (decide (i = x)) as [->|Hne].
  - rewrite lookup_insert_eq, Hi. simpl. done.
  - by rewrite lookup_insert_ne.
Qed.

Lemma after_update h i b b' x y :
  h !! i = Some b → next b' = next b →
  after (<[i := b']> h) x y ↔ after h x y.
Proof.
  intros Hi Hnext. split.
  - induction 1 as [x y H|x k y H _ IH].
    + apply after_next. by rewrite (nxt_update _ _ _ _ _ Hi Hnext) in H.
    + eapply after_trans; [|done].
      by rewrite (nxt_update _ _ _ _ _ Hi Hnext) in H.
  - induction 1 as [x y H|x k y H _ IH].
    + apply after_next. by rewrite (nxt_update _ _ _ _ _ Hi Hnext).
    + eapply after_trans; [|done].
      by rewrite (nxt_update _ _ _ _ _ Hi Hnext).
Qed.

Lemma nxt_lt h n i j : links_ok h n → nxt h i = Some j → (i < j)%nat ∧ is_Some (h !! j).
Proof.
  intros H Hn. unfold nxt in Hn.
  destruct (h !! i) as [b|] eqn:Hi; [|done]. simpl in Hn.
  pose proof (links_ok_lookup _ _ _ _ H Hi) as [_ Hl].
  by rewrite Hn in Hl.
Qed.

Lemma after_lt h n i j : links_ok h n → after h i j → (i < j)%nat.
Proof.
  intros H. induction 1 as [i j Hn|i k j Hn _ IH].
  - by apply (nxt_lt _ _ _ _ H) in Hn as [? _].
  - apply (nxt_lt _ _ _ _ H) in Hn as [? _]. lia.
Qed.

Lemma after_live h n i j : links_ok h n → after h i j → is_Some (h !! j).
Proof.
  intros H. induction 1 as [i j Hn|i k j Hn _ IH]; [|done].
  by apply (nxt_lt _ _ _ _ H) in Hn as [_ ?].
Qed.

End Invariant.

(** * Rollback *)

Section Rollback.

Implicit Types (h : gmap nat block) (s : arena) (b : block).

Lemma deref_live s i b : heap s !! i = Some b → deref (Some i) s = Ret b s.
Proof. intros H. unfold deref. by rewrite H. Qed.

Lemma modify_live s i b f :
  heap s !! i = Some b →
  modify (Some i) f s = Ret tt (set_heap (<[i := f b]> (heap s)) s).
Proof. intros H. unfold modify, bind. by rewrite (deref_live _ _ _ H). Qed.

(** The loop resets exactly the blocks of the chain it walks, and it
    finishes when given as many steps as handles were issued. *)
Lemma rollback_loop_spec fuel : ∀ s p,
  links_ok (heap s) (fresh s) →
  (∀ k, p = Some k → is_Some (heap s !! k) ∧ (fresh s - k ≤ fuel)%nat) →
  ∃ h', rollback_loop fuel p s = Ret tt (set_heap h' s)
    ∧ (∀ j bj, from (heap s) p j → heap s !! j = Some bj →
         h' !! j = Some (set_cur (data bj) bj))
    ∧ (∀ j, ¬ from (heap s) p j → h' !! j = heap s !! j)
    ∧ cursor_variant (heap s) h'.
Proof.
  induction fuel as [|fuel IH]; intros s p Hl Hp.
  - destruct p as [k|].
    + destruct (Hp k eq_refl) as [[b Hb] Hfuel].
      pose proof (links_ok_lookup _ _ _ _ Hl Hb) as [Hlt _]. lia.
    + exists (heap s). split; [by rewrite set_heap_id|].
      split; [|split; [done|apply cursor_variant_refl]].
      intros j bj [?|(k & ? & _)]; done.
  - destruct p as [k|]; simpl.
    2:{ exists (heap s). split; [by rewrite set_heap_id|].
        split; [|split; [done|apply cursor_variant_refl]].
        intros j bj [?|(k & ? & _)]; done. }
    destruct (Hp k eq_refl) as [[b Hb] Hfuel].
    pose proof (links_ok_lookup _ _ _ _ Hl Hb) as [Hlt Hnb].
    set (b' := set_cur (data b) b).
    set (s1 := set_heap (<[k := b']> (heap s)) s).
    assert (Hl1 : links_ok (heap s1) (fresh s1)).
    { simpl. by eapply links_ok_update. }
    assert (Hp1 : ∀ k', next b = Some k' →
              is_Some (heap s1 !! k') ∧ (fresh s1 - k' ≤ fuel)%nat).
    { intros k' Hk'. rewrite Hk' in Hnb. destruct Hnb as [Hkk' Hlive].
      simpl. split; [|lia]. apply lookup_insert_is_Some'. by right. }
    destruct (IH s1 (next b) Hl1 Hp1) as (h' & Hrun & Hin & Hout & Hvar).
    exists h'. split; [|split; [|split]].
    4:{ eapply cursor_variant_trans; [|exact Hvar].
        by apply cursor_variant_update. }
    + unfold bind at 1. rewrite (deref_live _ _ _ Hb).
      unfold bind at 1. rewrite (modify_live _ _ _ _ Hb). fold b' s1.
      unfold bind at 1. rewrite (deref_live s1 k b') by apply lookup_insert_eq.
      exact Hrun.
    + intros j bj Hfrom Hj.
      assert (Hk_out : ¬ from (heap s1) (next b) k).
      { intros Hf. assert (k < k)%nat; [|lia].
        destruct Hf as [Hf|(k' & Hf & Haft)].
        - rewrite Hf in Hnb. lia.
        - rewrite Hf in Hnb. apply (after_lt _ _ _ _ Hl1) in Haft. lia. }
      destruct (decide (j = k)) as [->|Hne].
      * rewrite (Hout k Hk_out). simpl. rewrite lookup_insert_eq.
        rewrite Hb in Hj. injection Hj as <-. reflexivity.
      * apply Hin; [|by simpl; rewrite lookup_insert_ne].
        destruct Hfrom as [Hf|(k' & Hf & Haft)]; [congruence|].
        inversion Hf; subst k'. simpl.
        inversion Haft as [? ? Hn|? k2 ? Hn Haft2]; subst;
          unfold nxt in Hn; rewrite Hb in Hn; simpl in Hn.
        -- by left.
        -- right. exists k2. split; [done|].
           by apply (after_update _ _ _ _ _ _ Hb).
    + intros j Hnot.
      assert (j ≠ k) by (intros ->; apply Hnot; by left).
      rewrite Hout; [by simpl; rewrite lookup_insert_ne|].
      intros Hf. apply Hnot. right. exists k. split; [done|].
      destruct Hf as [Hf|(k' & Hf & Haft)].
      * apply after_next. unfold nxt. by rewrite Hb.
      * apply (after_update _ _ _ _ _ _ Hb) in Haft; [|done].
        eapply after_trans; [|done]. unfold nxt. by rewrite Hb.
Qed.

Lemma rollback_to_unfold s m i b :
  mem m = Some i → heap s !! i = Some b →
  rollback_to m s =
    rollback_loop (fresh s) (next b)
      (set_heap (<[i := set_cur (m_cur m) b]> (heap s)) (set_active (Some i) s)).
Proof.
  intros Hm Hb. unfold rollback_to. rewrite Hm.
  unfold bind at 1. unfold put_active.
  unfold bind at 1. unfold get_active. simpl.
  unfold bind at 1. rewrite (modify_live (set_active (Some i) s) i b) by done.
  unfold bind at 1.
  rewrite (deref_live _ i (set_cur (m_cur m) b)) by apply lookup_insert_eq.
  done.
Qed.

End Rollback.

(** What a rollback to a marker naming block [i] with contents [b] does. *)
Lemma rollback_to_run (s : arena) (m : marker) (i : nat) (b : block) :
  wf s → mem m = Some i → heap s !! i = Some b →
  ∃ s', rollback_to m s = Ret tt s'
    ∧ _active s' = Some i
    ∧ _head s' = _head s
    ∧ _block_size s' = _block_size s
    ∧ fresh s' = fresh s
    ∧ heap s' !! i = Some (set_cur (m_cur m) b)
    ∧ (∀ j bj, after (heap s) i j → heap s !! j = Some bj →
         heap s' !! j = Some (set_cur (data bj) bj))
    ∧ (∀ j, j ≠ i → ¬ after (heap s) i j → heap s' !! j = heap s !! j)
    ∧ cursor_variant (heap s) (heap s').
Proof.
  intros (Hl & Hh & Ha) Hm Hb.
  rewrite (rollback_to_unfold _ _ _ _ Hm Hb).
  set (b' := set_cur (m_cur m) b).
  set (s1 := set_heap (<[i := b']> (heap s)) (set_active (Some i) s)).
  pose proof (links_ok_lookup _ _ _ _ Hl Hb) as [Hlt Hnb].
  assert (Hl1 : links_ok (heap s1) (fresh s1)).
  { simpl. by eapply links_ok_update. }
  assert (Hp1 : ∀ k, next b = Some k →
            is_Some (heap s1 !! k) ∧ (fresh s1 - k ≤ fresh s)%nat).
  { intros k Hk. rewrite Hk in Hnb. destruct Hnb as [_ Hlive].
    simpl. split; [|lia]. apply lookup_insert_is_Some'. by right. }
  destruct (rollback_loop_spec (fresh s) s1 (next b) Hl1 Hp1)
    as (h' & Hrun & Hin & Hout & Hvar).
  assert (Hfrom : ∀ j, from (heap s1) (next b) j ↔ after (heap s) i j).
  { intros j. split.
    - intros [Hf|(k & Hf & Haft)].
      + apply after_next. unfold nxt. by rewrite Hb.
      + apply (after_update _ _ _ _ _ _ Hb) in Haft; [|done].
        eapply after_trans; [|done]. unfold nxt. by rewrite Hb.
    - intros Haft.
      inversion Haft as [? ? Hn|? k ? Hn Haft2]; subst;
        unfold nxt in Hn; rewrite Hb in Hn; simpl in Hn.
      + by left.
      + right. exists k. split; [done|].
        by apply (after_update _ _ _ _ _ _ Hb). }
  exists (set_heap h' s1). split; [done|]. simpl.
  split; [done|]. split; [done|]. split; [done|]. split; [done|].
  split; [|split; [|split]].
  4:{ eapply cursor_variant_trans; [|exact Hvar].
      by apply cursor_variant_update. }
  - rewrite Hout; [by simpl; rewrite lookup_insert_eq|].
    intros Hf. apply Hfrom in Hf. apply (after_lt _ _ _ _ Hl) in Hf. lia.
  - intros j bj Haft Hj.
    assert (j ≠ i) by (apply (after_lt _ _ _ _ Hl) in Haft; lia).
    apply Hin; [by apply Hfrom|]. simpl. by rewrite lookup_insert_ne.
  - intros j Hne Hnot. rewrite Hout; [by simpl; rewrite lookup_insert_ne|].
    intros Hf. by apply Hnot, Hfrom.
Qed.

(** C4: [rollback_to m], for a marker [m] of this arena, returns normally;
    afterwards [_active] is the marker's block and that block's cursor is
    the marker's saved cursor; every block reachable strictly after the
    marker's block through [next] has its cursor reset to its [data]; and
    nothing else changes: all other blocks are as before, every block
    keeps its [data], [end], [next] and [capacity], and [_head], the growth
    seed and the set of blocks are the same. *)
Theorem rollback_to_spec (s : arena) (m : marker) (i : nat) (b : block) :
  wf s → mem m = Some i → heap s !! i = Some b →
  ∃ s', rollback_to m s = Ret tt s'
    ∧ _active s' = Some i
    ∧ _head s' = _head s
    ∧ _block_size s' = _block_size s
    ∧ fresh s' = fresh s
    ∧ heap s' !! i = Some (set_cur (m_cur m) b)
    ∧ (∀ j bj, after (heap s) i j → heap s !! j = Some bj →
         heap s' !! j = Some (set_cur (data bj) bj))
    ∧ (∀ j, j ≠ i → ¬ after (heap s) i j → heap s' !! j = heap s !! j)
    ∧ cursor_variant (heap s) (heap s').
Proof. apply rollback_to_run. Qed.

(** C10: [rollback_to] with a marker whose block pointer is null (such as
    a default-constructed marker) returns normally and leaves the whole
    arena as it was: [_active], every block and every link. *)
Theorem rollback_to_null_marker (c : Z) (s : arena) :
  rollback_to (Marker None c) s = Ret tt s.
Proof. reflexivity. Qed.

(** C9: [allocate_bytes(0, alignment)] returns the null pointer, for every
    alignment, and the arena is the same afterwards: blocks, cursors,
    links, [_active], [_head] and the growth seed. *)
Theorem allocate_bytes_zero (sys : option Z) (alignment : Z) (s : arena) :
  allocate_bytes sys 0 alignment s = Ret 0 s.
Proof. reflexivity. Qed.

(** * Allocation *)

Section Allocation.

Implicit Types (h : gmap nat block) (s : arena) (b : block).

Lemma allocate_bytes_eq sys bytes al :
  allocate_bytes sys bytes al =
    if bytes =? 0 then ret 0 else
    let* p := try_alloc_at_active bytes (effective_alignment al) in
    if negb (p =? 0) then ret p
    else grow_path sys bytes (effective_alignment al).
Proof. reflexivity. Qed.

Lemma try_alloc_at_active_unfold bytes al s a b :
  _active s = Some a → heap s !! a = Some b →
  try_alloc_at_active bytes al s =
    let aligned := align_up (cur b) al in
    if wrap (end_ b - aligned) <? bytes then Ret 0 s
    else Ret aligned
           (set_heap (<[a := set_cur (wrap (aligned + bytes)) b]> (heap s)) s).
Proof.
  intros Ha Hb. unfold try_alloc_at_active.
  unfold bind at 1. unfold get_active. rewrite Ha.
  unfold bind at 1. rewrite (deref_live _ _ _ Hb). simpl.
  destruct (wrap (end_ b - align_up (cur b) al) <? bytes); [done|].
  unfold bind. by rewrite (modify_live _ _ _ _ Hb).
Qed.

Lemma grow_path_unfold sys bytes al s a b :
  _active s = Some a → heap s !! a = Some b → a ≠ fresh s →
  grow_path sys bytes al s =
    if wrap (bytes + al) <? bytes then Throw bad_alloc s else
    match sys with
    | None => Throw bad_alloc s
    | Some d =>
        let nc := Z.max (Z.max (wrap (capacity b * 2)) (wrap (bytes + al)))
                        (_block_size s) in
        let s2 := grown s a b d nc in
        let aligned := align_up d al in
        if wrap (wrap (d + nc) - aligned) <? bytes then Throw bad_alloc s2
        else
          let s3 := set_heap (<[fresh s :=
                        Block d (wrap (aligned + bytes)) (wrap (d + nc)) None nc]>
                      (heap s2)) s2 in
          if negb (aligned =? 0) then Ret aligned s3 else Throw bad_alloc s3
    end.
Proof.
  intros Ha Hb Hne. unfold grow_path, overflow_addition.
  destruct (wrap (bytes + al) <? bytes); [done|].
  unfold bind at 1. unfold get_active. rewrite Ha.
  unfold bind at 1. rewrite (deref_live _ _ _ Hb).
  unfold bind at 1. unfold bind at 1. unfold new_block.
  destruct sys as [d|]; [|done]. simpl.
  set (nc := Z.max (Z.max (wrap (capacity b * 2)) (wrap (bytes + al)))
                   (_block_size s)).
  set (blk := Block d d (wrap (d + nc)) None nc).
  unfold bind at 1.
  rewrite (modify_live _ (fresh s) blk) by apply lookup_insert_eq.
  unfold set_heap at 1. cbn [heap fresh _block_size _head _active].
  rewrite insert_insert_eq. change (set_next None blk) with blk.
  unfold bind at 1. unfold bind at 1. cbn [_active]. rewrite Ha.
  rewrite (modify_live _ a b)
    by (cbn [heap]; rewrite lookup_insert_ne by done; exact Hb).
  unfold set_heap at 1. cbn [heap fresh _block_size _head _active]. unfold bind at 1. unfold put_active, set_active, set_heap. simpl.
  fold (grown s a b d nc).
  assert (Hblk : heap (grown s a b d nc) !! fresh s = Some blk).
  { simpl. rewrite lookup_insert_ne by done. apply lookup_insert_eq. }
  unfold bind.
  pose proof (try_alloc_at_active_unfold bytes al (grown s a b d nc)
                (fresh s) blk eq_refl Hblk) as Htry.
  unfold grown in Htry |- *. fold blk in Htry |- *. rewrite Htry.
  simpl. destruct (wrap (wrap (d + nc) - align_up d al) <? bytes); [done|].
  destruct (align_up d al =? 0); done.
Qed.

(** The first attempt leaves the arena as it was up to the cursor of the
    active block, and returns null or the aligned cursor. *)
Lemma first_attempt bytes al s a b :
  _active s = Some a → heap s !! a = Some b →
  ∃ p c, try_alloc_at_active bytes al s =
           Ret p (set_heap (<[a := set_cur c b]> (heap s)) s)
    ∧ (p = 0 ∨ p = align_up (cur b) al).
Proof.
  intros Ha Hb. rewrite (try_alloc_at_active_unfold _ _ _ _ _ Ha Hb). simpl.
  destruct (wrap (end_ b - align_up (cur b) al) <? bytes).
  - exists 0, (cur b). split; [|by left].
    replace (set_cur (cur b) b) with b by (by destruct b).
    by rewrite insert_id, set_heap_id.
  - eexists _, _. split; [done|by right].
Qed.

Lemma same_storage_refl b : same_storage b b.
Proof. done. Qed.

Lemma same_storage_trans b1 b2 b3 :
  same_storage b1 b2 → same_storage b2 b3 → same_storage b1 b3.
Proof. unfold same_storage. intros (? & ? & ?) (? & ? & ?). repeat split; congruence. Qed.

Lemma extends_refl s : extends s s.
Proof. repeat split; [lia|]. intros i b Hi. by exists b. Qed.

Lemma extends_trans s1 s2 s3 : extends s1 s2 → extends s2 s3 → extends s1 s3.
Proof.
  intros (? & H12 & ? & ?) (? & H23 & ? & ?).
  split; [lia|]. split; [|split; congruence].
  intros i b Hi. destruct (H12 i b Hi) as (b2 & Hi2 & Hs2).
  destruct (H23 i b2 Hi2) as (b3 & Hi3 & Hs3).
  exists b3. split; [done|by eapply same_storage_trans].
Qed.

Lemma extends_live s s' i :
  extends s s' → is_Some (heap s !! i) → is_Some (heap s' !! i).
Proof.
  intros (_ & H & _) [b Hb]. destruct (H i b Hb) as (b' & Hb' & _). by eexists.
Qed.

Lemma extends_update s i b b' :
  heap s !! i = Some b → same_storage b b' →
  extends s (set_heap (<[i := b']> (heap s)) s).
Proof.
  intros Hi Hs. split; [simpl; lia|]. split; [|done].
  intros j x Hj. simpl. destruct (decide (i = j)) as [->|Hne].
  - rewrite lookup_insert_eq. exists b'. split; [done|congruence].
  - rewrite lookup_insert_ne by done. by exists x.
Qed.

Lemma links_ok_fresh h n : links_ok h n → h !! n = None.
Proof.
  intros H. destruct (h !! n) as [b|] eqn:Hn; [|done].
  destruct (links_ok_lookup _ _ _ _ H Hn). lia.
Qed.

Lemma extends_grown s a ab d nc :
  links_ok (heap s) (fresh s) → heap s !! a = Some ab →
  extends s (grown s a ab d nc).
Proof.
  intros Hl Ha. split; [simpl; lia|]. split; [|done].
  intros j x Hj. simpl. destruct (decide (a = j)) as [->|Hne].
  - rewrite lookup_insert_eq. eexists. split; [done|].
    rewrite Ha in Hj. by injection Hj as <-.
  - rewrite lookup_insert_ne by done.
    assert (fresh s ≠ j).
    { intros <-. by rewrite (links_ok_fresh _ _ Hl) in Hj. }
    rewrite lookup_insert_ne by done. by exists x.
Qed.

Lemma wf_active_inv s :
  wf s → ∃ a b, _active s = Some a ∧ heap s !! a = Some b ∧ (a < fresh s)%nat.
Proof.
  intros (Hl & _ & Ha). apply live_inv in Ha as (a & b & Ha & Hb).
  exists a, b. split; [done|]. split; [done|].
  by destruct (links_ok_lookup _ _ _ _ Hl Hb).
Qed.

Lemma wf_grown s a b d nc :
  wf s → heap s !! a = Some b → wf (grown s a b d nc).
Proof.
  intros (Hl & Hh & Ha) Hb. split; [|split]; simpl.
  - by apply links_ok_grow.
  - apply live_inv in Hh as (j & x & -> & Hj).
    apply live_Some, lookup_insert_is_Some'. right.
    apply lookup_insert_is_Some'. right. by eexists.
  - apply live_Some, lookup_insert_is_Some'. right.
    apply lookup_insert_is_Some'. by left.
Qed.

(** [allocate_bytes] returns or throws [bad_alloc] on every well-formed
    arena, and leaves it well-formed. *)
Lemma allocate_bytes_total sys bytes al s :
  wf s →
  ∃ s', ((∃ p, allocate_bytes sys bytes al s = Ret p s')
          ∨ allocate_bytes sys bytes al s = Throw bad_alloc s')
    ∧ wf s' ∧ extends s s'.
Proof.
  intros Hwf. rewrite allocate_bytes_eq.
  destruct (bytes =? 0).
  { exists s. split; [left; by exists 0|]. split; [done|apply extends_refl]. }
  destruct (wf_active_inv s Hwf) as (a & b & Ha & Hb & Hlt).
  destruct (first_attempt bytes (effective_alignment al) s a b Ha Hb)
    as (p & c & Htry & _).
  set (s1 := set_heap (<[a := set_cur c b]> (heap s)) s) in *.
  assert (Hwf1 : wf s1) by (by eapply wf_update).
  assert (Hext1 : extends s s1) by (by apply (extends_update s a b)).
  unfold bind. rewrite Htry.
  destruct (negb (p =? 0)).
  { exists s1. split; [left; by exists p|done]. }
  assert (Hb1 : heap s1 !! a = Some (set_cur c b)) by apply lookup_insert_eq.
  rewrite (grow_path_unfold sys bytes _ s1 a _ Ha Hb1) by (simpl; lia).
  destruct (wrap (bytes + effective_alignment al) <? bytes).
  { exists s1. split; [by right|done]. }
  destruct sys as [d|]; [|exists s1; split; [by right|done]].
  cbv zeta.
  set (nc := Z.max _ (_block_size s1)).
  set (s2 := grown s1 a (set_cur c b) d nc).
  assert (Hwf2 : wf s2) by (by apply wf_grown).
  assert (Hext2 : extends s s2).
  { eapply extends_trans; [done|]. apply extends_grown; [apply Hwf1|done]. }
  destruct (wrap (wrap (d + nc) - align_up d (effective_alignment al)) <? bytes).
  { exists s2. split; [by right|done]. }
  set (blk := Block d _ _ None nc).
  set (s3 := set_heap (<[fresh s1 := blk]> (heap s2)) s2).
  assert (Hblk : heap s2 !! fresh s1 = Some (Block d d (wrap (d + nc)) None nc)).
  { simpl. rewrite lookup_insert_ne by (simpl; lia). apply lookup_insert_eq. }
  assert (Hwf3 : wf s3) by (by eapply (wf_update s2 (fresh s1))).
  assert (Hext3 : extends s s3).
  { eapply extends_trans; [exact Hext2|]. by eapply extends_update. }
  destruct (negb (align_up d (effective_alignment al) =? 0)).
  - exists s3. split; [left; by eexists|done].
  - exists s3. split; [by right|done].
Qed.

(** The growth step, spelled out: when the first attempt returned null,
    the request does not overflow and the system allocator hands out a
    block [d .. d + nc) inside the address space, [allocate_bytes] links
    that block behind the active one, makes it active and serves the
    request from it. *)
Lemma allocate_bytes_grow s bytes al a b s1 d :
  wf s → 0 < bytes < 2 ^ 64 → 0 ≤ al < 2 ^ 64 →
  _active s = Some a → heap s !! a = Some b →
  try_alloc_at_active bytes (effective_alignment al) s = Ret 0 s1 →
  bytes + effective_alignment al < 2 ^ 64 →
  0 < d →
  d + Z.max (Z.max (wrap (capacity b * 2)) (bytes + effective_alignment al))
            (_block_size s) < 2 ^ 64 →
  let al' := effective_alignment al in
  let nc := Z.max (Z.max (wrap (capacity b * 2)) (bytes + al')) (_block_size s) in
  let p := align_up d al' in
  ∃ b1, heap s1 !! a = Some b1 ∧ next b1 = next b ∧
    allocate_bytes (Some d) bytes al s =
      Ret p (set_heap (<[fresh s := Block d (p + bytes) (d + nc) None nc]>
                         (heap (grown s1 a b1 d nc)))
                      (grown s1 a b1 d nc))
    ∧ fresh s1 = fresh s
    ∧ d ≤ p ∧ p + bytes ≤ d + nc ∧ p ≠ 0.
Proof.
  intros Hwf Hbytes Hal Ha Hb Htry Hno Hd Hfit al' nc p.
  destruct (effective_alignment_pow2 al Hal) as (k & Hk & Hal').
  fold al' in Hal', Hno, Hfit. fold nc in Hfit.
  assert (H2k : 0 < 2 ^ k) by (apply Z.pow_pos_nonneg; lia).
  assert (Hlt : (a < fresh s)%nat).
  { destruct Hwf as (Hl & _). by destruct (links_ok_lookup _ _ _ _ Hl Hb). }
  destruct (first_attempt bytes al' s a b Ha Hb) as (p0 & c & Htry' & _).
  fold al' in Htry. rewrite Htry' in Htry. injection Htry as -> <-.
  set (s1 := set_heap (<[a := set_cur c b]> (heap s)) s) in *.
  assert (Hb1 : heap s1 !! a = Some (set_cur c b)) by apply lookup_insert_eq.
  exists (set_cur c b). split; [done|]. split; [done|].
  assert (Hnc : bytes + al' ≤ nc) by (unfold nc; lia).
  assert (Hp : d ≤ p ≤ d + al' - 1).
  { unfold p. rewrite Hal'. apply align_up_bounds; lia. }
  split; [|repeat split; lia].
  rewrite allocate_bytes_eq.
  replace (bytes =? 0) with false by (symmetry; apply Z.eqb_neq; lia).
  unfold bind. fold al'. rewrite Htry'.
  change (negb (0 =? 0)) with false. cbv iota.
  rewrite (grow_path_unfold (Some d) bytes al' s1 a _ Ha Hb1) by (simpl; lia).
  rewrite (wrap_small (bytes + al')) by lia.
  replace (bytes + al' <? bytes) with false by (symmetry; apply Z.ltb_ge; lia).
  cbv zeta. simpl capacity. simpl _block_size. fold nc. fold p.
  rewrite (wrap_small (d + nc)) by lia.
  rewrite (wrap_small (d + nc - p)) by lia.
  replace (d + nc - p <? bytes) with false by (symmetry; apply Z.ltb_ge; lia).
  replace (p =? 0) with false by (symmetry; apply Z.eqb_neq; lia).
  rewrite (wrap_small (p + bytes)) by lia.
  reflexivity.
Qed.

End Allocation.

(** * Alignment and the retried attempt *)

Section Alignment.

Lemma overflow_addition_false a b need :
  0 ≤ a < 2 ^ 64 → 0 ≤ b < 2 ^ 64 →
  overflow_addition a b = (false, need) → need = a + b ∧ a + b < 2 ^ 64.
Proof.
  intros Ha Hb H. unfold overflow_addition in H.
  injection H as Hlt Hneed. apply Z.ltb_ge in Hlt.
  destruct (Z_lt_le_dec (a + b) (2 ^ 64)) as [Hs|Hbig].
  - rewrite wrap_small in Hneed by lia. lia.
  - exfalso. unfold wrap, SIZE_BITS in Hlt.
    replace (a + b) with ((a + b - 2 ^ 64) + 1 * 2 ^ 64) in Hlt by lia.
    rewrite Z_mod_plus_full, Z.mod_small in Hlt by lia. lia.
Qed.

Lemma overflow_addition_true a b :
  0 ≤ a < 2 ^ 64 → 0 ≤ b < 2 ^ 64 → 2 ^ 64 ≤ a + b →
  fst (overflow_addition a b) = true.
Proof.
  intros Ha Hb Hbig. unfold overflow_addition. simpl. apply Z.ltb_lt.
  unfold wrap, SIZE_BITS.
  replace (a + b) with ((a + b - 2 ^ 64) + 1 * 2 ^ 64) by lia.
  rewrite Z_mod_plus_full, Z.mod_small by lia. lia.
Qed.

Lemma effective_alignment_valid al :
  0 ≤ al → power_of_two al → effective_alignment al = al.
Proof.
  intros Hal Hp. unfold effective_alignment.
  assert (Hz : al ≠ 0).
  { destruct Hp as (k & Hk & ->).
    assert (0 < 2 ^ k) by (apply Z.pow_pos_nonneg; lia). lia. }
  apply is_pow_2_spec in Hp; [|done]. rewrite Hp.
  apply Z.eqb_neq in Hz. by rewrite Hz.
Qed.

Lemma effective_alignment_invalid al :
  0 ≤ al → ¬ power_of_two al → effective_alignment al = max_align.
Proof.
  intros Hal Hp. unfold effective_alignment.
  destruct (al =? 0); [done|]. simpl.
  destruct (is_pow_2 al) eqn:H; [|done].
  apply is_pow_2_spec in H; done.
Qed.

Lemma bind_Ret {A B} (m : M A) (k : A → M B) s v s' :
  bind m k s = Ret v s' → ∃ x s1, m s = Ret x s1 ∧ k x s1 = Ret v s'.
Proof. unfold bind. destruct (m s); try done. eauto. Qed.

Lemma try_alloc_result bytes al s p s' :
  try_alloc_at_active bytes al s = Ret p s' → p = 0 ∨ ∃ c, p = align_up c al.
Proof.
  intros H. unfold try_alloc_at_active in H.
  apply bind_Ret in H as (a & s1 & _ & H).
  apply bind_Ret in H as (b & s2 & _ & H).
  destruct (wrap (end_ b - align_up (cur b) al) <? bytes).
  - injection H as <- _. by left.
  - apply bind_Ret in H as (? & ? & _ & H). injection H as <- _.
    right. by eexists.
Qed.

Lemma accept_result al p s v s' :
  (if negb (p =? 0) then ret p else throw bad_alloc) s = Ret v s' →
  (p = 0 ∨ ∃ c, p = align_up c al) →
  v ≠ 0 ∧ ∃ c, v = align_up c al.
Proof.
  intros H Hp. destruct (p =? 0) eqn:Hz; simpl in H; [done|].
  injection H as <- _. apply Z.eqb_neq in Hz.
  split; [done|]. by destruct Hp.
Qed.

Lemma grow_path_result sys bytes al s p s' :
  grow_path sys bytes al s = Ret p s' → p ≠ 0 ∧ ∃ c, p = align_up c al.
Proof.
  intros H. unfold grow_path in H.
  destruct (overflow_addition bytes al) as [[] need]; [done|].
  do 8 (apply bind_Ret in H as (? & ? & _ & H)).
  apply bind_Ret in H as (v & s9 & Htry & H).
  eapply accept_result; [done|]. by eapply try_alloc_result.
Qed.

Lemma allocate_bytes_result sys bytes al s p s' :
  bytes ≠ 0 → allocate_bytes sys bytes al s = Ret p s' →
  p ≠ 0 ∧ ∃ c, p = align_up c (effective_alignment al).
Proof.
  intros Hb H. rewrite allocate_bytes_eq in H.
  apply Z.eqb_neq in Hb. rewrite Hb in H.
  apply bind_Ret in H as (v & s1 & Htry & H).
  destruct (v =? 0) eqn:Hz; simpl in H.
  - by eapply grow_path_result.
  - injection H as <- _. apply Z.eqb_neq in Hz. split; [done|].
    apply try_alloc_result in Htry as [?|?]; done.
Qed.

End Alignment.

(** C7: for a request of [bytes > 0], an alignment that is zero or not a
    power of two is replaced by [alignof(std::max_align_t)] and the call
    then behaves in every respect as the call with that default alignment,
    so it fails only where the default-aligned call fails; a valid
    alignment is kept.  Every address the call returns is non-null and is a
    multiple of the effective alignment, which is a power of two. *)
Theorem allocate_bytes_alignment
    (sys : option Z) (bytes alignment : Z) (s : arena) :
  0 < bytes → 0 ≤ alignment < 2 ^ 64 →
  (power_of_two alignment → effective_alignment alignment = alignment)
  ∧ (¬ power_of_two alignment →
       effective_alignment alignment = max_align
       ∧ allocate_bytes sys bytes alignment s
         = allocate_bytes sys bytes max_align s)
  ∧ power_of_two (effective_alignment alignment)
  ∧ (∀ p s', allocate_bytes sys bytes alignment s = Ret p s' →
       p ≠ 0 ∧ p mod effective_alignment alignment = 0).
Proof.
  intros Hbytes Hal. split; [|split; [|split]].
  - apply effective_alignment_valid. lia.
  - intros Hinv.
    pose proof (effective_alignment_invalid alignment ltac:(lia) Hinv) as He.
    split; [done|].
    rewrite !allocate_bytes_eq. rewrite He.
    change (effective_alignment max_align) with max_align. done.
  - destruct (effective_alignment_pow2 alignment Hal) as (k & Hk & ->).
    exists k. split; [lia|done].
  - intros p s' H.
    apply allocate_bytes_result in H as (Hnz & c & ->); [|lia].
    split; [done|].
    destruct (effective_alignment_pow2 alignment Hal) as (k & Hk & ->).
    by apply align_up_mod.
Qed.

(** C8: when the first attempt of a request with [bytes > 0] returns null,
    [bytes + alignment] does not overflow and the system allocator supplies
    the new block (a non-null address [d] whose [new_cap] bytes lie inside
    the address space), the retried attempt succeeds: [allocate_bytes]
    returns an address inside the new block and does not reach the final
    [throw]. *)
Theorem retry_after_growth_succeeds
    (s s1 : arena) (bytes alignment need d : Z) (a : nat) (b : block) :
  wf s → 0 < bytes < 2 ^ 64 → 0 ≤ alignment < 2 ^ 64 →
  _active s = Some a → heap s !! a = Some b →
  try_alloc_at_active bytes (effective_alignment alignment) s = Ret 0 s1 →
  overflow_addition bytes (effective_alignment alignment) = (false, need) →
  0 < d →
  d + Z.max (Z.max (wrap (capacity b * 2)) need) (_block_size s) < 2 ^ 64 →
  ∃ p s', allocate_bytes (Some d) bytes alignment s = Ret p s'
    ∧ p ≠ 0
    ∧ _active s' = Some (fresh s)
    ∧ (∃ nb, heap s' !! fresh s = Some nb
         ∧ data nb = d ∧ data nb ≤ p ∧ p + bytes = cur nb ∧ cur nb ≤ end_ nb).
Proof.
  intros Hwf Hbytes Hal Ha Hb Htry Hovf Hd Hfit.
  destruct (effective_alignment_pow2 alignment Hal) as (k & Hk & Hal').
  assert (H2k : 0 < 2 ^ k < 2 ^ 64).
  { split; [apply Z.pow_pos_nonneg; lia|apply Z.pow_lt_mono_r; lia]. }
  apply overflow_addition_false in Hovf as [-> Hno]; [|lia|lia].
  destruct (allocate_bytes_grow s bytes alignment a b s1 d
              Hwf Hbytes Hal Ha Hb Htry Hno Hd Hfit)
    as (b1 & Hb1 & Hnext & Hrun & Hfresh & Hlo & Hhi & Hnz).
  eexists _, _. split; [exact Hrun|]. split; [done|].
  split; [by simpl; rewrite Hfresh|].
  eexists. split; [simpl; apply lookup_insert_eq|]. simpl.
  repeat split; lia.
Qed.

(** * Reachable arenas are well-formed *)

Section Reachable.

Implicit Types (h : gmap nat block) (s : arena) (b : block).

Lemma arena_ctor_wf sys n s : arena_ctor sys n = Ret tt s → wf s.
Proof.
  unfold arena_ctor, new_block. destruct sys as [d|]; [|done].
  intros H. injection H as <-. split; [|split]; simpl.
  - apply map_Forall_insert_2; [|apply map_Forall_empty].
    split; [lia|done].
  - apply live_Some. rewrite lookup_insert_eq. by eexists.
  - apply live_Some. rewrite lookup_insert_eq. by eexists.
Qed.

Lemma allocate_bytes_preserves sys bytes al s s' :
  wf s →
  (∃ p, allocate_bytes sys bytes al s = Ret p s')
  ∨ (∃ e, allocate_bytes sys bytes al s = Throw e s') →
  wf s' ∧ extends s s'.
Proof.
  intros Hwf H.
  destruct (allocate_bytes_total sys bytes al s Hwf)
    as (s'' & [[p Hr]|Hr] & Hwf' & Hext);
    rewrite Hr in H; destruct H as [[? H]|[? H]]; try done;
    injection H as _ <-; done.
Qed.

(** [allocate_bytes] throws nothing but [bad_alloc]. *)
Lemma only_bad_alloc_bind {A B} (m : M A) (k : A → M B) :
  only_bad_alloc m → (∀ x, only_bad_alloc (k x)) → only_bad_alloc (bind m k).
Proof.
  intros Hm Hk s e s' H. unfold bind in H.
  destruct (m s) as [x s1|e1 s1| |] eqn:Hms; try done.
  - by eapply Hk.
  - injection H as <- _. by eapply Hm.
Qed.

Lemma only_bad_alloc_pure {A} (m : M A) :
  (∀ s, ∃ x s', m s = Ret x s') → only_bad_alloc m.
Proof.
  intros Hm s e s' H. destruct (Hm s) as (x & t & Hr). by rewrite Hr in H.
Qed.

Lemma only_bad_alloc_deref p : only_bad_alloc (deref p).
Proof.
  intros s e s' H. unfold deref in H.
  destruct p as [i|]; [destruct (heap s !! i) as [b|]|]; done.
Qed.

Lemma only_bad_alloc_modify p f : only_bad_alloc (modify p f).
Proof.
  apply only_bad_alloc_bind; [apply only_bad_alloc_deref|].
  intros b s e s' H. destruct p; done.
Qed.

Lemma only_bad_alloc_try bytes al : only_bad_alloc (try_alloc_at_active bytes al).
Proof.
  apply only_bad_alloc_bind; [apply only_bad_alloc_pure; unfold get_active; eauto|].
  intros a. apply only_bad_alloc_bind; [apply only_bad_alloc_deref|].
  intros b. cbv zeta. destruct (_ <? _).
  - apply only_bad_alloc_pure. unfold ret. eauto.
  - apply only_bad_alloc_bind; [apply only_bad_alloc_modify|].
    intros _. apply only_bad_alloc_pure. unfold ret. eauto.
Qed.

Lemma only_bad_alloc_throw {A} : only_bad_alloc (@throw A bad_alloc).
Proof. intros s e s' H. by injection H as <- _. Qed.

Lemma only_bad_alloc_accept p :
  only_bad_alloc (if negb (p =? 0) then ret p else throw bad_alloc).
Proof.
  destruct (negb (p =? 0)); [|apply only_bad_alloc_throw].
  apply only_bad_alloc_pure. unfold ret. eauto.
Qed.

Lemma only_bad_alloc_grow_path sys bytes al :
  only_bad_alloc (grow_path sys bytes al).
Proof.
  unfold grow_path. destruct (overflow_addition bytes al) as [[] need];
    [apply only_bad_alloc_throw|].
  apply only_bad_alloc_bind; [apply only_bad_alloc_pure; unfold get_active; eauto|].
  intros a. apply only_bad_alloc_bind; [apply only_bad_alloc_deref|].
  intros ab. apply only_bad_alloc_bind;
    [apply only_bad_alloc_pure; unfold get_block_size; eauto|].
  intros bs. apply only_bad_alloc_bind.
  { intros s e s' H. unfold new_block in H. destruct sys; [done|].
    by injection H as <- _. }
  intros b. apply only_bad_alloc_bind; [apply only_bad_alloc_modify|].
  intros _. apply only_bad_alloc_bind;
    [apply only_bad_alloc_pure; unfold get_active; eauto|].
  intros a'. apply only_bad_alloc_bind; [apply only_bad_alloc_modify|].
  intros _. apply only_bad_alloc_bind;
    [apply only_bad_alloc_pure; unfold put_active; eauto|].
  intros _. apply only_bad_alloc_bind; [apply only_bad_alloc_try|].
  intros p. apply only_bad_alloc_accept.
Qed.

Lemma allocate_bytes_total_throw sys bytes al s e s' :
  allocate_bytes sys bytes al s = Throw e s' → e = bad_alloc.
Proof.
  revert s e s'. change (only_bad_alloc (allocate_bytes sys bytes al)).
  rewrite allocate_bytes_eq. destruct (bytes =? 0).
  { apply only_bad_alloc_pure. unfold ret. eauto. }
  apply only_bad_alloc_bind; [apply only_bad_alloc_try|].
  intros p. destruct (negb (p =? 0)); [|apply only_bad_alloc_grow_path].
  apply only_bad_alloc_pure. unfold ret. eauto.
Qed.

Lemma wf_cursor_variant s s' :
  wf s → cursor_variant (heap s) (heap s') →
  fresh s' = fresh s → _head s' = _head s → live (heap s') (_active s') →
  wf s'.
Proof.
  intros (Hl & Hh & Ha) Hv Hf Hhd Hact. split; [|split].
  - rewrite Hf. by eapply links_ok_cursor_variant.
  - rewrite Hhd. by eapply cursor_variant_live.
  - done.
Qed.

Lemma rollback_to_total s m :
  wf s → marker_in s m →
  ∃ s', rollback_to m s = Ret tt s' ∧ wf s' ∧ extends s s'
    ∧ _active s' = mem m ∧ cursor_variant (heap s) (heap s').
Proof.
  intros Hwf Hm. apply live_inv in Hm as (i & b & Hm & Hb).
  destruct (rollback_to_run s m i b Hwf Hm Hb)
    as (s' & Hrun & Hact & Hhd & Hbs & Hfr & Hi & _ & _ & Hvar).
  exists s'. split; [done|].
  split; [|split; [|split]].
  - apply (wf_cursor_variant s); try done.
    rewrite Hact. apply live_Some. by eexists.
  - split; [lia|]. split; [|done].
    intros j x Hj. specialize (Hvar j). rewrite Hj in Hvar.
    destruct Hvar as [c Hc]. by eexists.
  - congruence.
  - done.
Qed.

Lemma marker_in_extends s s' m : extends s s' → marker_in s m → marker_in s' m.
Proof.
  intros Hext Hm. apply live_inv in Hm as (i & b & Hm & Hb).
  unfold marker_in. rewrite Hm. apply live_Some.
  apply (extends_live s); [done|by eexists].
Qed.

Lemma create_marker_run s a b :
  _active s = Some a → heap s !! a = Some b →
  create_marker s = Ret (Marker (Some a) (cur b)) s.
Proof.
  intros Ha Hb. unfold create_marker, bind, get_active. rewrite Ha.
  by rewrite (deref_live _ _ _ Hb).
Qed.

(** A marker captured on a well-formed arena names one of its blocks, and
    keeps doing so however the arena is used afterwards. *)
Lemma create_marker_in s m s' :
  wf s → create_marker s = Ret m s' → s' = s ∧ marker_in s m.
Proof.
  intros Hwf H. destruct (wf_active_inv s Hwf) as (a & b & Ha & Hb & _).
  rewrite (create_marker_run _ _ _ Ha Hb) in H. injection H as <- <-.
  split; [done|]. apply live_Some. by eexists.
Qed.

Lemma make_unfold sys sz al ctor s a b :
  _active s = Some a → heap s !! a = Some b →
  make sys sz al ctor s =
    match allocate_bytes sys sz al s with
    | Ret p s1 =>
        match ctor p with
        | None => Ret p s1
        | Some e =>
            match rollback_to (Marker (Some a) (cur b)) s1 with
            | Ret _ s2 => Throw (ctor_failure e) s2
            | Throw e' s2 => Throw e' s2
            | Undef => Undef
            | Diverge => Diverge
            end
        end
    | Throw e s1 => Throw e s1
    | Undef => Undef
    | Diverge => Diverge
    end.
Proof.
  intros Ha Hb. unfold make. unfold bind at 1.
  rewrite (create_marker_run _ _ _ Ha Hb). unfold bind at 1.
  destruct (allocate_bytes sys sz al s) as [p s1| | |]; try done.
  destruct (ctor p); done.
Qed.

Lemma make_preserves sys sz al ctor s s' :
  wf s →
  (∃ p, make sys sz al ctor s = Ret p s')
  ∨ (∃ e, make sys sz al ctor s = Throw e s') →
  wf s' ∧ extends s s'.
Proof.
  intros Hwf H. destruct (wf_active_inv s Hwf) as (a & b & Ha & Hb & _).
  rewrite (make_unfold _ _ _ _ _ _ _ Ha Hb) in H.
  destruct (allocate_bytes sys sz al s) as [p s1|e s1| |] eqn:Halloc.
  - destruct (allocate_bytes_preserves sys sz al s s1 Hwf) as [Hwf1 Hext1];
      [left; by eexists|].
    destruct (ctor p) as [e|].
    + assert (Hm : marker_in s1 (Marker (Some a) (cur b))).
      { apply (marker_in_extends s); [done|]. apply live_Some. by eexists. }
      destruct (rollback_to_total s1 _ Hwf1 Hm) as (s2 & Hrun & Hwf2 & Hext2 & _).
      rewrite Hrun in H. destruct H as [[? H]|[? H]]; [done|].
      injection H as _ <-. split; [done|by eapply extends_trans].
    + destruct H as [[? H]|[? H]]; [|done]. by injection H as _ <-.
  - destruct (allocate_bytes_preserves sys sz al s s1 Hwf) as [Hwf1 Hext1];
      [right; by eexists|].
    destruct H as [[? H]|[? H]]; [done|]. by injection H as _ <-.
  - by destruct H as [[? H]|[? H]].
  - by destruct H as [[? H]|[? H]].
Qed.

(** Every reachable arena is well-formed. *)
Lemma reachable_wf s : reachable s → wf s.
Proof.
  induction 1 as [sys n s H|s sys bytes al p s' _ IH H|s sys bytes al e s' _ IH H
                 |s m s' _ IH Hm H|s sys sz al ctor p s' _ IH H
                 |s sys sz al ctor e s' _ IH H].
  - by eapply arena_ctor_wf.
  - eapply allocate_bytes_preserves; [exact IH|left; by eexists].
  - eapply allocate_bytes_preserves; [exact IH|right; by eexists].
  - destruct (rollback_to_total s m IH Hm) as (s'' & Hrun & Hwf & _).
    rewrite Hrun in H. by injection H as <-.
  - eapply make_preserves; [exact IH|left; by eexists].
  - eapply make_preserves; [exact IH|right; by eexists].
Qed.

End Reachable.

(** * What holds of growth and of replay *)

Section Growth.

Implicit Types (h : gmap nat block) (s : arena) (b : block).

(** As long as the aligned cursor lies inside the block, an attempt at the
    active block keeps the cursor inside [data .. end]. *)
Lemma try_alloc_in_bounds bytes k s a b p s' :
  _active s = Some a → heap s !! a = Some b →
  0 ≤ k < 64 → 0 ≤ bytes →
  0 ≤ data b ≤ cur b → cur b ≤ end_ b < 2 ^ 64 →
  cur b + 2 ^ k - 1 < 2 ^ 64 →
  align_up (cur b) (2 ^ k) ≤ end_ b →
  try_alloc_at_active bytes (2 ^ k) s = Ret p s' →
  (p = 0 ∧ s' = s)
  ∨ (∃ b', heap s' !! a = Some b' ∧ same_storage b b'
       ∧ cur b ≤ p ∧ p + bytes = cur b' ∧ cur b' ≤ end_ b').
Proof.
  intros Ha Hb Hk Hbytes Hdata Hend Hnowrap Hin Htry.
  rewrite (try_alloc_at_active_unfold _ _ _ _ _ Ha Hb) in Htry. cbv zeta in Htry.
  pose proof (align_up_bounds (cur b) k Hk ltac:(lia) Hnowrap) as Hal.
  rewrite (wrap_small (end_ b - _)) in Htry by lia.
  destruct (end_ b - align_up (cur b) (2 ^ k) <? bytes) eqn:Hfit.
  - injection Htry as <- <-. by left.
  - apply Z.ltb_ge in Hfit. injection Htry as <- <-. right.
    rewrite wrap_small by lia.
    eexists. split; [simpl; apply lookup_insert_eq|]. simpl.
    repeat split; lia.
Qed.

(** The growth policy on the path the code takes when its first attempt
    returns null. *)
Lemma growth_policy s bytes al a b s1 d :
  wf s → 0 < bytes < 2 ^ 64 → 0 ≤ al < 2 ^ 64 →
  _active s = Some a → heap s !! a = Some b →
  try_alloc_at_active bytes (effective_alignment al) s = Ret 0 s1 →
  bytes + effective_alignment al < 2 ^ 64 →
  0 ≤ capacity b * 2 < 2 ^ 64 →
  0 < d →
  d + Z.max (Z.max (wrap (capacity b * 2)) (bytes + effective_alignment al))
            (_block_size s) < 2 ^ 64 →
  ∃ p s' nb, allocate_bytes (Some d) bytes al s = Ret p s'
    ∧ fresh s' = S (fresh s)
    ∧ _active s' = Some (fresh s)
    ∧ nxt (heap s') a = Some (fresh s)
    ∧ heap s' !! fresh s = Some nb
    ∧ 2 * capacity b ≤ capacity nb
    ∧ bytes + effective_alignment al ≤ capacity nb
    ∧ _block_size s ≤ capacity nb
    ∧ data nb ≤ p ∧ p + bytes ≤ end_ nb.
Proof.
  intros Hwf Hbytes Hal Ha Hb Htry Hno Hcap Hd Hfit.
  destruct (allocate_bytes_grow s bytes al a b s1 d
              Hwf Hbytes Hal Ha Hb Htry Hno Hd Hfit)
    as (b1 & Hb1 & Hnext & Hrun & Hfresh & Hlo & Hhi & Hnz).
  assert (Hlt : (a < fresh s)%nat).
  { destruct Hwf as (Hl & _). by destruct (links_ok_lookup _ _ _ _ Hl Hb). }
  eexists _, _, _. split; [exact Hrun|]. simpl.
  split; [by rewrite Hfresh|]. split; [by rewrite Hfresh|].
  split.
  { unfold nxt. rewrite lookup_insert_ne by lia. rewrite Hfresh.
    rewrite lookup_insert_eq. done. }
  split; [apply lookup_insert_eq|]. simpl.
  rewrite (wrap_small (capacity b * 2)) in * by lia.
  repeat split; lia.
Qed.

Lemma allocate_bytes_overflow sys s bytes al s1 :
  0 < bytes < 2 ^ 64 → 0 ≤ al < 2 ^ 64 →
  try_alloc_at_active bytes (effective_alignment al) s = Ret 0 s1 →
  2 ^ 64 ≤ bytes + effective_alignment al →
  allocate_bytes sys bytes al s = Throw bad_alloc s1.
Proof.
  intros Hbytes Hal Htry Hbig.
  destruct (effective_alignment_pow2 al Hal) as (k & Hk & Hal').
  assert (H2k : 0 < 2 ^ k < 2 ^ 64).
  { split; [apply Z.pow_pos_nonneg; lia|apply Z.pow_lt_mono_r; lia]. }
  rewrite allocate_bytes_eq.
  replace (bytes =? 0) with false by (symmetry; apply Z.eqb_neq; lia).
  unfold bind. rewrite Htry. change (negb (0 =? 0)) with false. cbv iota.
  unfold grow_path.
  pose proof (overflow_addition_true bytes (effective_alignment al)
                ltac:(lia) ltac:(lia) Hbig) as Hovf.
  destruct (overflow_addition bytes (effective_alignment al)) as [ovf need].
  simpl in Hovf. by rewrite Hovf.
Qed.

(** With no block coming from the system allocator, a returning call was
    served by the first attempt. *)
Lemma allocate_bytes_None bytes al s p s' :
  allocate_bytes None bytes al s = Ret p s' →
  (bytes = 0 ∧ p = 0 ∧ s' = s)
  ∨ (bytes ≠ 0 ∧ p ≠ 0
       ∧ try_alloc_at_active bytes (effective_alignment al) s = Ret p s').
Proof.
  intros H. rewrite allocate_bytes_eq in H.
  destruct (bytes =? 0) eqn:Hz.
  { injection H as <- <-. apply Z.eqb_eq in Hz. by left. }
  apply Z.eqb_neq in Hz. right.
  apply bind_Ret in H as (v & s1 & Htry & H).
  destruct (v =? 0) eqn:Hv; simpl in H.
  - exfalso. unfold grow_path in H.
    destruct (overflow_addition bytes (effective_alignment al)) as [[] need];
      [done|].
    do 3 (apply bind_Ret in H as (? & ? & _ & H)).
    apply bind_Ret in H as (? & ? & Hnew & _). done.
  - injection H as <- <-. apply Z.eqb_neq in Hv. done.
Qed.

Lemma try_alloc_same_active bytes al s1 s2 p s1' :
  same_active s1 s2 →
  try_alloc_at_active bytes al s1 = Ret p s1' →
  ∃ s2', try_alloc_at_active bytes al s2 = Ret p s2' ∧ same_active s1' s2'.
Proof.
  intros [Hact Hblk] Htry.
  destruct (_active s1) as [a|] eqn:Ha.
  2:{ unfold try_alloc_at_active, bind, get_active, deref in Htry.
      by rewrite Ha in Htry. }
  destruct (heap s1 !! a) as [b|] eqn:Hb.
  2:{ unfold try_alloc_at_active, bind, get_active, deref in Htry.
      by rewrite Ha, Hb in Htry. }
  assert (Hb2 : heap s2 !! a = Some b) by (by rewrite (Hblk a eq_refl)).
  rewrite (try_alloc_at_active_unfold _ _ _ _ _ Ha Hb) in Htry.
  rewrite (try_alloc_at_active_unfold _ _ _ _ _ Hact Hb2).
  cbv zeta in *.
  destruct (wrap (end_ b - align_up (cur b) al) <? bytes).
  - injection Htry as <- <-. exists s2. split; [done|].
    split; [congruence|]. intros a' Ha'. apply Hblk. congruence.
  - injection Htry as <- <-. eexists. split; [done|].
    split; [simpl; congruence|]. simpl. intros a' Ha'.
    assert (a' = a) as -> by congruence.
    by rewrite !lookup_insert_eq.
Qed.

Lemma allocate_all_same_active reqs : ∀ s1 s2 ps s1',
  same_active s1 s2 →
  allocate_all reqs s1 = Ret ps s1' →
  ∃ s2', allocate_all reqs s2 = Ret ps s2' ∧ same_active s1' s2'.
Proof.
  induction reqs as [|[bytes al] rest IH]; intros s1 s2 ps s1' Hsame H; simpl in *.
  { injection H as <- <-. by exists s2. }
  apply bind_Ret in H as (p & t1 & Halloc & H).
  apply bind_Ret in H as (qs & u1 & Hrest & H). injection H as <- <-.
  assert (∃ t2, allocate_bytes None bytes al s2 = Ret p t2 ∧ same_active t1 t2)
    as (t2 & Halloc2 & Hsame2).
  { apply allocate_bytes_None in Halloc as [(-> & -> & ->)|(Hz & Hp & Htry)].
    - by exists s2.
    - destruct (try_alloc_same_active _ _ _ _ _ _ Hsame Htry) as (t2 & Htry2 & ?).
      exists t2. split; [|done]. rewrite allocate_bytes_eq.
      apply Z.eqb_neq in Hz. rewrite Hz. unfold bind. rewrite Htry2.
      apply Z.eqb_neq in Hp. by rewrite Hp. }
  destruct (IH t1 t2 qs u1 Hsame2 Hrest) as (u2 & Hrest2 & Hsame3).
  exists u2. split; [|done]. unfold bind. by rewrite Halloc2, Hrest2.
Qed.

(** Such a run moves nothing but the cursor of the active block. *)
Lemma allocate_all_frame reqs : ∀ s ps s',
  wf s → allocate_all reqs s = Ret ps s' →
  wf s' ∧ _active s' = _active s ∧ cursor_variant (heap s) (heap s').
Proof.
  induction reqs as [|[bytes al] rest IH]; intros s ps s' Hwf H; simpl in *.
  { injection H as <- <-. split; [done|]. split; [done|apply cursor_variant_refl]. }
  apply bind_Ret in H as (p & t & Halloc & H).
  apply bind_Ret in H as (qs & u & Hrest & H). injection H as <- <-.
  assert (wf t ∧ _active t = _active s ∧ cursor_variant (heap s) (heap t))
    as (Hwft & Hat & Hvt).
  { apply allocate_bytes_None in Halloc as [(-> & -> & ->)|(Hz & Hp & Htry)].
    - split; [done|]. split; [done|apply cursor_variant_refl].
    - destruct (wf_active_inv s Hwf) as (a & b & Ha & Hb & _).
      destruct (first_attempt bytes (effective_alignment al) s a b Ha Hb)
        as (p' & c & Htry' & _).
      rewrite Htry' in Htry. injection Htry as -> <-.
      split; [by eapply wf_update|]. split; [done|].
      simpl. by apply cursor_variant_update. }
  destruct (IH t qs u Hwft Hrest) as (Hwfu & Hau & Hvu).
  split; [done|]. split; [congruence|by eapply cursor_variant_trans].
Qed.

(** Rolling back to a marker and re-issuing the requests made since it
    was captured returns the same addresses again, provided those requests
    were all served by the block that was active at the marker. *)
Lemma replay_within_block reqs s m ps s1 :
  wf s → create_marker s = Ret m s →
  allocate_all reqs s = Ret ps s1 →
  ∃ s2 s3, rollback_to m s1 = Ret tt s2 ∧ allocate_all reqs s2 = Ret ps s3.
Proof.
  intros Hwf Hm Hrun.
  destruct (wf_active_inv s Hwf) as (a & b & Ha & Hb & _).
  rewrite (create_marker_run _ _ _ Ha Hb) in Hm. injection Hm as <-.
  destruct (allocate_all_frame reqs s ps s1 Hwf Hrun) as (Hwf1 & Ha1 & Hv1).
  pose proof (Hv1 a) as Hva. rewrite Hb in Hva. destruct Hva as [c Hb1].
  destruct (rollback_to_run s1 (Marker (Some a) (cur b)) a _ Hwf1 eq_refl Hb1)
    as (s2 & Hroll & Hact2 & _ & _ & _ & Hb2 & _).
  assert (Hsame : same_active s s2).
  { split; [congruence|]. intros a' Ha'.
    assert (a' = a) as -> by congruence.
    rewrite Hb2, Hb. simpl. f_equal. by destruct b. }
  destruct (allocate_all_same_active reqs s s2 ps s1 Hsame Hrun) as (s3 & Hrun2 & _).
  by exists s2, s3.
Qed.

(** A construction that fails in the block that was active before the
    call leaves the arena such that the same request gets the address the
    construction was run at. *)
Lemma failed_make_within_block sz al ctor e s s' :
  wf s → make None sz al ctor s = Throw (ctor_failure e) s' →
  ∃ p s'', ctor p = Some e ∧ allocate_bytes None sz al s' = Ret p s''.
Proof.
  intros Hwf H. destruct (wf_active_inv s Hwf) as (a & b & Ha & Hb & _).
  rewrite (make_unfold _ _ _ _ _ _ _ Ha Hb) in H.
  destruct (allocate_bytes None sz al s) as [p s1|e1 s1| |] eqn:Halloc;
    [|by apply allocate_bytes_total_throw in Halloc as ->|done|done].
  destruct (ctor p) as [e'|] eqn:Hctor; [|done].
  assert (Hall : allocate_all [(sz, al)] s = Ret [p] s1).
  { simpl. unfold bind. by rewrite Halloc. }
  destruct (replay_within_block [(sz, al)] s (Marker (Some a) (cur b)) [p] s1
              Hwf (create_marker_run _ _ _ Ha Hb) Hall)
    as (s2 & s3 & Hroll & Hreplay).
  rewrite Hroll in H. injection H as <- <-.
  simpl in Hreplay. apply bind_Ret in Hreplay as (q & t & Hq & Hrest).
  injection Hrest as <- _. by exists q, t.
Qed.

(** ** Growth at the tail of the chain *)

Lemma allocate_bytes_shape sys bytes al s a b s' :
  wf s → _active s = Some a → heap s !! a = Some b →
  (∃ p, allocate_bytes sys bytes al s = Ret p s')
  ∨ (∃ e, allocate_bytes sys bytes al s = Throw e s') →
  alloc_shape s a b s'.
Proof.
  intros Hwf Ha Hb H.
  assert (Hlt : (a < fresh s)%nat).
  { destruct Hwf as (Hl & _). by destruct (links_ok_lookup _ _ _ _ Hl Hb). }
  assert (Hself : alloc_shape s a b s).
  { pose proof (shape_bump s a b (cur b)) as Hs.
    by rewrite set_cur_cur, insert_id, set_heap_id in Hs. }
  rewrite allocate_bytes_eq in H.
  destruct (bytes =? 0).
  { destruct H as [[? H]|[? H]]; [|done]. by injection H as _ <-. }
  destruct (first_attempt bytes (effective_alignment al) s a b Ha Hb)
    as (p & c & Htry & _).
  unfold bind in H. rewrite Htry in H.
  set (s1 := set_heap (<[a := set_cur c b]> (heap s)) s) in *.
  destruct (negb (p =? 0)).
  { destruct H as [[? H]|[? H]]; [|done]. injection H as _ <-. constructor. }
  assert (Hb1 : heap s1 !! a = Some (set_cur c b)) by apply lookup_insert_eq.
  rewrite (grow_path_unfold sys bytes _ s1 a _ Ha Hb1) in H by (simpl; lia).
  destruct (wrap (bytes + effective_alignment al) <? bytes).
  { destruct H as [[? H]|[? H]]; [done|]. injection H as _ <-. constructor. }
  destruct sys as [d|].
  2:{ destruct H as [[? H]|[? H]]; [done|]. injection H as _ <-. constructor. }
  cbv zeta in H.
  set (nc := Z.max _ (_block_size s1)) in H.
  destruct (wrap (wrap (d + nc) - align_up d (effective_alignment al)) <? bytes).
  { destruct H as [[? H]|[? H]]; [done|]. injection H as _ <-.
    pose proof (shape_grow s a b c d nc d) as Hs. fold s1 in Hs.
    rewrite insert_id in Hs.
    - by rewrite set_heap_id in Hs.
    - simpl. rewrite lookup_insert_ne by lia. apply lookup_insert_eq. }
  destruct (negb (align_up d (effective_alignment al) =? 0));
    destruct H as [[? H]|[? H]]; try done; injection H as _ <-;
    apply (shape_grow s a b c d nc).
Qed.

Lemma after_mono h h' x y :
  (∀ j k, nxt h j = Some k → nxt h' j = Some k) →
  after h x y → after h' x y.
Proof.
  intros Hm. induction 1 as [x y H|x k y H _ IH].
  - apply after_next. by apply Hm.
  - eapply after_trans; [by apply Hm|done].
Qed.

Lemma from_mono h h' p y :
  (∀ j k, nxt h j = Some k → nxt h' j = Some k) →
  from h p y → from h' p y.
Proof.
  intros Hm [H|(k & Hk & Haft)]; [by left|].
  right. exists k. split; [done|by eapply after_mono].
Qed.

Lemma from_step h p a n : from h p a → nxt h a = Some n → from h p n.
Proof.
  intros [->|(k & -> & Haft)] Hn.
  - right. exists a. split; [done|by apply after_next].
  - right. exists k. split; [done|]. clear -Haft Hn.
    induction Haft as [x y H|x k' y H _ IH].
    + eapply after_trans; [done|by apply after_next].
    + eapply after_trans; [done|by apply IH].
Qed.

(** While [_active] is the tail of the chain, [allocate_bytes] keeps every
    block linked from [_head], the new block included, and [_active] stays
    the tail. *)
Lemma alloc_shape_linked s a b s' :
  wf s → _active s = Some a → heap s !! a = Some b →
  all_linked s → active_is_tail s →
  alloc_shape s a b s' →
  all_linked s' ∧ active_is_tail s'.
Proof.
  intros Hwf Ha Hb Hall Htail Hshape.
  destruct Hwf as (Hl & _).
  pose proof (links_ok_lookup _ _ _ _ Hl Hb) as [Hlt _].
  pose proof (links_ok_fresh _ _ Hl) as Hfresh.
  destruct Hshape as [c|c d nc c'].
  - assert (Hn : ∀ j, nxt (<[a := set_cur c b]> (heap s)) j = nxt (heap s) j).
    { intros j. by apply (nxt_update _ _ b). }
    split.
    + intros i Hi. simpl in *.
      apply (from_mono (heap s)); [intros j k; by rewrite Hn|].
      apply Hall. apply lookup_insert_is_Some in Hi as [<-|[_ Hi]]; [|done].
      by eexists.
    + intros a' Ha'. simpl in *. rewrite Hn. by apply Htail.
  - set (n := fresh s).
    set (h' := <[n := Block d c' (wrap (d + nc)) None nc]> _).
    assert (Hne : a ≠ n) by (unfold n; lia).
    assert (Hnn : nxt h' n = None).
    { unfold nxt, h'. by rewrite lookup_insert_eq. }
    assert (Hna : nxt h' a = Some n).
    { unfold nxt, h'. rewrite lookup_insert_ne by done. simpl.
      by rewrite lookup_insert_eq. }
    assert (Hother : ∀ j, j ≠ a → j ≠ n → h' !! j = heap s !! j).
    { intros j Hja Hjn. unfold h'. rewrite lookup_insert_ne by done. simpl.
      rewrite lookup_insert_ne by done. rewrite lookup_insert_ne by done.
      by rewrite lookup_insert_ne. }
    assert (Hm : ∀ j k, nxt (heap s) j = Some k → nxt h' j = Some k).
    { intros j k Hjk. destruct (decide (j = a)) as [->|Hja].
      - rewrite (Htail a Ha) in Hjk. done.
      - destruct (decide (j = n)) as [->|Hjn].
        + unfold nxt in Hjk. fold n in Hfresh. by rewrite Hfresh in Hjk.
        + unfold nxt. rewrite Hother by done. exact Hjk. }
    assert (Hfa : from h' (_head s) a).
    { apply (from_mono (heap s)); [done|]. apply Hall. by eexists. }
    split.
    + intros i Hi. simpl in *. fold n h' in Hi |- *.
      destruct (decide (i = n)) as [->|Hin]; [by eapply from_step|].
      apply (from_mono (heap s)); [done|]. apply Hall.
      destruct (decide (i = a)) as [->|Hia]; [by eexists|].
      by rewrite <- Hother.
    + intros a' Ha'. simpl in *. fold n h'. injection Ha' as <-. done.
Qed.

Lemma arena_ctor_linked sys n s :
  arena_ctor sys n = Ret tt s → all_linked s ∧ active_is_tail s.
Proof.
  unfold arena_ctor, new_block. destruct sys as [d|]; [|done].
  intros H. injection H as <-. split.
  - intros i Hi. simpl in *. left.
    apply lookup_insert_is_Some in Hi as [->|[_ Hi]]; [done|].
    rewrite lookup_empty in Hi. by destruct Hi.
  - intros a Ha. simpl in *. injection Ha as <-.
    unfold nxt. by rewrite lookup_insert_eq.
Qed.

Lemma allocate_bytes_linked sys bytes al s s' :
  wf s → all_linked s → active_is_tail s →
  (∃ p, allocate_bytes sys bytes al s = Ret p s')
  ∨ (∃ e, allocate_bytes sys bytes al s = Throw e s') →
  all_linked s' ∧ active_is_tail s'.
Proof.
  intros Hwf Hall Htail H.
  destruct (wf_active_inv s Hwf) as (a & b & Ha & Hb & _).
  eapply (alloc_shape_linked s a b); try done.
  by eapply allocate_bytes_shape.
Qed.

End Growth.

(** * Concrete runs *)

Section Concrete.

Lemma arena_1024_ctor : arena_ctor (Some 4096) 1024 = Ret tt arena_1024.
Proof. run_model. Qed.

Lemma arena_1024_fill :
  allocate_bytes None 900 8 arena_1024 = Ret 4096 arena_marked.
Proof. run_model. Qed.

Lemma arena_marked_marker :
  create_marker arena_marked = Ret (Marker (Some 0%nat) 4996) arena_marked.
Proof. run_model. Qed.

Lemma arena_marked_grows :
  allocate_bytes (Some 8192) 200 8 arena_marked = Ret 8192 arena_grown.
Proof. run_model. Qed.

Lemma arena_grown_rollback :
  rollback_to (Marker (Some 0%nat) 4996) arena_grown = Ret tt arena_rolled_back.
Proof. run_model. Qed.

Lemma arena_marked_reachable : reachable arena_marked.
Proof.
  eapply reach_allocate; [|exact arena_1024_fill].
  eapply reach_ctor. exact arena_1024_ctor.
Qed.

Lemma arena_grown_reachable : reachable arena_grown.
Proof.
  eapply reach_allocate; [|exact arena_marked_grows].
  exact arena_marked_reachable.
Qed.

Lemma arena_rolled_back_reachable : reachable arena_rolled_back.
Proof.
  eapply reach_rollback; [| |exact arena_grown_rollback].
  - exact arena_grown_reachable.
  - apply live_Some. vm_compute. eauto.
Qed.

Lemma arena_rolled_back_first_attempt :
  try_alloc_at_active 200 (effective_alignment 8) arena_rolled_back
  = Ret 0 arena_rolled_back.
Proof. run_model. Qed.

(** Wherever the system allocator places the block of the second growth,
    as long as it does not overlap the block at 8192 .. 10240, which is
    still allocated, the replayed request does not return 8192 again. *)
Lemma replay_after_growth_any_placement d2 :
  0 < d2 → d2 + 2048 < 2 ^ 64 →
  d2 + 2048 ≤ 8192 ∨ 10240 ≤ d2 →
  ∃ q s, scenario_B 4096 8192 d2 = Ret (8192, q) s ∧ q ≠ 8192.
Proof.
  intros Hd Htop Hdisj.
  destruct (allocate_bytes_grow arena_rolled_back 200 8 0
              (Block 4096 4996 5120 (Some 1%nat) 1024) arena_rolled_back d2)
    as (b1 & _ & _ & Hrun & _ & Hlo & Hhi & _).
  - apply reachable_wf, arena_rolled_back_reachable.
  - lia.
  - lia.
  - reflexivity.
  - vm_compute. reflexivity.
  - exact arena_rolled_back_first_attempt.
  - vm_compute. reflexivity.
  - done.
  - change (d2 + 2048 < 2 ^ 64). done.
  - cbv zeta in Hrun, Hlo, Hhi.
    assert (Hnc : Z.max (Z.max (wrap (capacity
                    (Block 4096 4996 5120 (Some 1%nat) 1024) * 2))
                    (200 + effective_alignment 8))
                  (_block_size arena_rolled_back) = 2048).
    { vm_compute. reflexivity. }
    rewrite Hnc in Hhi. clear Hnc.
    change (effective_alignment 8) with 8 in *.
    eexists _, _. split; [|shelve].
    unfold scenario_B, on_new_arena. rewrite arena_1024_ctor.
    step_with arena_1024_fill. step_with arena_marked_marker.
    step_with arena_marked_grows. step_with arena_grown_rollback.
    step_with Hrun. reflexivity.
    Unshelve. lia.
Qed.

End Concrete.

(** C2 (the code departs from it): after [arena a(1025)],
    [allocate_bytes(1025, 1)] and [allocate_bytes(1, 16)], with the block
    at address 4096, the only block has [cur = 5137] although its
    [end = 5121]: the cursor has left [data .. end].  The block's [data],
    [end] and [capacity] are unchanged and [capacity = end - data]. *)
Theorem cursor_passes_end :
  ∃ s, fill_then_align 4096 = Ret (4096, 5136) s
    ∧ _active s = Some 0%nat
    ∧ heap s !! 0%nat = Some (Block 4096 5137 5121 None 1025)
    ∧ 5121 < 5137.
Proof.
  eexists. split; [run_model|].
  split; [reflexivity|]. split; [run_model|lia].
Qed.

(** C3 (the code departs from it): in the arena left by [arena a(1025)]
    and [allocate_bytes(1025, 1)] the active block has no byte left
    ([cur = end = 5121]), so a request of one byte at alignment 16 does not
    fit in it; yet [allocate_bytes(1, 16)] creates no block (the arena
    still has its single block and the system allocator is not asked) and
    returns 5136, an address past the block's end. *)
Theorem full_block_served_without_growth :
  ∃ s1 s2,
    on_new_arena 4096 1025 (allocate_bytes None 1025 1) = Ret 4096 s1
    ∧ heap s1 !! 0%nat = Some (Block 4096 5121 5121 None 1025)
    ∧ _active s1 = Some 0%nat
    ∧ allocate_bytes None 1 16 s1 = Ret 5136 s2
    ∧ fresh s2 = 1%nat ∧ _active s2 = Some 0%nat
    ∧ heap s2 !! 1%nat = None
    ∧ 5121 ≤ 5136.
Proof.
  eexists _, _. split; [run_model|].
  split; [run_model|]. split; [reflexivity|].
  split; [run_model|].
  split; [reflexivity|]. split; [reflexivity|].
  split; [run_model|lia].
Qed.

(** C5 (the code departs from it): on [arena a(1024)] after
    [allocate_bytes(900, 8)], with blocks placed at 4096, 8192 and 12288:
    after capturing [m], [allocate_bytes(200, 8)] grows the arena and
    returns [p2 = 8192]; after [rollback_to(m)] the same request grows the
    arena again and returns 12288, not [p2].  The block at 8192 is still
    allocated, with its cursor reset. *)
Theorem replay_after_growth_moves :
  ∃ s, scenario_B 4096 8192 12288 = Ret (8192, 12288) s
    ∧ heap s !! 1%nat = Some (Block 8192 8192 10240 None 2048)
    ∧ _active s = Some 2%nat
    ∧ 8192 ≠ 12288.
Proof.
  eexists. split; [run_model|].
  split; [run_model|]. split; [reflexivity|lia].
Qed.

(** C1 (the code departs from it): in the run [arena a(1024);
    a.allocate_bytes(900, 8); m = a.create_marker(); a.allocate_bytes(200, 8);
    a.rollback_to(m); a.allocate_bytes(200, 8);] the second growth links
    its block directly behind the head block, replacing the link to the
    block created by the first growth.  That block (handle 1) is still
    allocated but is no longer on the chain from [_head], and [free_all]
    releases blocks 0 and 2 only. *)
Theorem relink_orphans_block :
  ∃ s s', scenario_B 4096 8192 12288 = Ret (8192, 12288) s
    ∧ _head s = Some 0%nat
    ∧ chain (fresh s) (heap s) (_head s) = [0%nat; 2%nat]
    ∧ is_Some (heap s !! 1%nat)
    ∧ ¬ from (heap s) (_head s) 1%nat
    ∧ free_all s = Ret tt s'
    ∧ heap s' !! 0%nat = None ∧ heap s' !! 2%nat = None
    ∧ heap s' !! 1%nat = Some (Block 8192 8192 10240 None 2048).
Proof.
  eexists _, _. split; [run_model|].
  split; [reflexivity|]. split; [run_model|].
  split; [vm_compute; eauto|].
  split.
  { intros [Hf|(k & Hk & Haft)]; [done|].
    injection Hk as <-.
    inversion Haft as [? ? Hn|? k ? Hn Haft2]; subst.
    - vm_compute in Hn. done.
    - assert (k = 2%nat) as -> by (vm_compute in Hn; congruence).
      inversion Haft2 as [? ? Hn2|? ? ? Hn2 _]; vm_compute in Hn2; done. }
  split; [run_model|].
  split; [run_model|].
  split; run_model.
Qed.

(** C6 (the code departs from it): on [arena a(1024)] with blocks placed at
    4096, 8192 and 12288, [make<T>] for a [T] of size 2000 and alignment 16
    grows the arena, runs the constructor at 8192 and, when it throws,
    rolls back and rethrows the same exception; the following
    [allocate_bytes(2000, 16)] grows the arena again and returns 12288,
    not the address 8192 the failed construction used. *)
Theorem failed_make_address_not_reused :
  (∃ s, failed_make 4096 8192 = Throw (ctor_failure (Z.to_nat 8192)) s
     ∧ _active s = Some 0%nat
     ∧ heap s !! 0%nat = Some (Block 4096 4096 5120 (Some 1%nat) 1024))
  ∧ (∃ s, failed_make_then_allocate 4096 8192 12288 = Ret 12288 s)
  ∧ 12288 ≠ 8192.
Proof.
  split; [|split; [|lia]].
  - eexists. split; [run_model|].
    split; [reflexivity|run_model].
  - eexists. run_model.
Qed.

(** * Instances of the theorems that carry hypotheses *)

Lemma rollback_to_spec_witness :
  wf arena_grown
  ∧ mem (Marker (Some 0%nat) 4996) = Some 0%nat
  ∧ heap arena_grown !! 0%nat = Some (Block 4096 4996 5120 (Some 1%nat) 1024)
  ∧ ∃ s', rollback_to (Marker (Some 0%nat) 4996) arena_grown = Ret tt s'
      ∧ _active s' = Some 0%nat
      ∧ _head s' = _head arena_grown
      ∧ _block_size s' = _block_size arena_grown
      ∧ fresh s' = fresh arena_grown
      ∧ heap s' !! 0%nat
        = Some (set_cur 4996 (Block 4096 4996 5120 (Some 1%nat) 1024))
      ∧ (∀ j bj, after (heap arena_grown) 0 j → heap arena_grown !! j = Some bj →
           heap s' !! j = Some (set_cur (data bj) bj))
      ∧ (∀ j, j ≠ 0%nat → ¬ after (heap arena_grown) 0 j →
           heap s' !! j = heap arena_grown !! j)
      ∧ cursor_variant (heap arena_grown) (heap s').
Proof.
  assert (Hwf : wf arena_grown).
  { refine (bool_decide_unpack _ _). vm_compute. exact I. }
  assert (Hb : heap arena_grown !! 0%nat
               = Some (Block 4096 4996 5120 (Some 1%nat) 1024)).
  { vm_compute. reflexivity. }
  split; [exact Hwf|]. split; [reflexivity|]. split; [exact Hb|].
  exact (rollback_to_spec arena_grown (Marker (Some 0%nat) 4996) 0
           (Block 4096 4996 5120 (Some 1%nat) 1024) Hwf eq_refl Hb).
Defined.

Lemma allocate_bytes_alignment_witness :
  0 < 8 ∧ 0 ≤ 3 < 2 ^ 64
  ∧ (power_of_two 3 → effective_alignment 3 = 3)
  ∧ (¬ power_of_two 3 →
       effective_alignment 3 = max_align
       ∧ allocate_bytes None 8 3 arena_1024
         = allocate_bytes None 8 max_align arena_1024)
  ∧ power_of_two (effective_alignment 3)
  ∧ (∀ p s', allocate_bytes None 8 3 arena_1024 = Ret p s' →
       p ≠ 0 ∧ p mod effective_alignment 3 = 0).
Proof.
  assert (H1 : 0 < 8) by lia.
  assert (H2 : 0 ≤ 3 < 2 ^ 64) by lia.
  split; [exact H1|]. split; [exact H2|].
  exact (allocate_bytes_alignment None 8 3 arena_1024 H1 H2).
Defined.

Lemma retry_after_growth_succeeds_witness :
  wf arena_marked ∧ 0 < 200 < 2 ^ 64 ∧ 0 ≤ 8 < 2 ^ 64
  ∧ _active arena_marked = Some 0%nat
  ∧ heap arena_marked !! 0%nat = Some (Block 4096 4996 5120 None 1024)
  ∧ try_alloc_at_active 200 (effective_alignment 8) arena_marked
    = Ret 0 arena_marked
  ∧ overflow_addition 200 (effective_alignment 8) = (false, 208)
  ∧ 0 < 8192
  ∧ 8192 + Z.max (Z.max (wrap (1024 * 2)) 208) (_block_size arena_marked) < 2 ^ 64
  ∧ ∃ p s', allocate_bytes (Some 8192) 200 8 arena_marked = Ret p s'
      ∧ p ≠ 0
      ∧ _active s' = Some (fresh arena_marked)
      ∧ (∃ nb, heap s' !! fresh arena_marked = Some nb
           ∧ data nb = 8192 ∧ data nb ≤ p ∧ p + 200 = cur nb
           ∧ cur nb ≤ end_ nb).
Proof.
  assert (Hwf : wf arena_marked).
  { refine (bool_decide_unpack _ _). vm_compute. exact I. }
  assert (Hbytes : 0 < 200 < 2 ^ 64) by lia.
  assert (Hal : 0 ≤ 8 < 2 ^ 64) by lia.
  assert (Hb : heap arena_marked !! 0%nat = Some (Block 4096 4996 5120 None 1024)).
  { vm_compute. reflexivity. }
  assert (Htry : try_alloc_at_active 200 (effective_alignment 8) arena_marked
                 = Ret 0 arena_marked).
  { vm_compute. reflexivity. }
  assert (Hovf : overflow_addition 200 (effective_alignment 8) = (false, 208)).
  { vm_compute. reflexivity. }
  assert (Hd : 0 < 8192) by lia.
  assert (Hfit : 8192 + Z.max (Z.max (wrap (1024 * 2)) 208)
                              (_block_size arena_marked) < 2 ^ 64).
  { vm_compute. reflexivity. }
  repeat (split; [assumption || reflexivity|]).
  exact (retry_after_growth_succeeds arena_marked arena_marked 200 8 208 8192 0
           (Block 4096 4996 5120 None 1024)
           Hwf Hbytes Hal eq_refl Hb Htry Hovf Hd Hfit).
Defined.

(** * Further properties of [impl] *)

Section MoreBits.

Lemma align_up_nonneg p al : 0 ≤ align_up p al.
Proof.
  unfold align_up. apply Z.land_nonneg. left.
  apply (wrap_range (p + wrap (al - 1))).
Qed.

End MoreBits.

(** X1: [impl::align_up], for a power-of-two alignment [2^k] and an address
    whose rounding does not cross the top of the address space: the result
    is the least multiple of the alignment that is not below [p]; an
    aligned address is returned unchanged. *)
Theorem align_up_least (p k m : Z) :
  0 ≤ k < 64 → 0 ≤ p → p + 2 ^ k - 1 < 2 ^ 64 →
  p ≤ align_up p (2 ^ k)
  ∧ align_up p (2 ^ k) mod 2 ^ k = 0
  ∧ (p ≤ m → m mod 2 ^ k = 0 → align_up p (2 ^ k) ≤ m)
  ∧ (p mod 2 ^ k = 0 → align_up p (2 ^ k) = p).
Proof.
  intros Hk Hp Hfit.
  assert (H2 : 0 < 2 ^ k) by (apply Z.pow_pos_nonneg; lia).
  pose proof (align_up_bounds p k Hk Hp Hfit) as [Hlo Hhi].
  pose proof (align_up_mod p k Hk) as Hmod.
  assert (Hleast : ∀ m', p ≤ m' → m' mod 2 ^ k = 0 → align_up p (2 ^ k) ≤ m').
  { intros m' Hm Hmm.
    apply Z.mod_divide in Hmm as [q Hq]; [|lia].
    apply Z.mod_divide in Hmod as [r Hr]; [|lia].
    rewrite Hr in Hhi |- *. subst m'. clear Hlo.
    generalize dependent (2 ^ k). intros a; intros.
    assert (r < q + 1) by nia. nia. }
  split; [done|]. split; [done|]. split; [apply Hleast|].
  intros Hpa. apply Z.le_antisymm; [|done]. apply Hleast; [lia|done].
Qed.

(** X2: [impl::align_up] at the top of the address space: when
    [p + (alignment - 1)] does not fit in 64 bits, the sum wraps and the
    result is the null address, not an address above [p]. *)
Theorem align_up_wraps_to_null (p k : Z) :
  0 ≤ k < 64 → 0 ≤ p < 2 ^ 64 → 2 ^ 64 ≤ p + 2 ^ k - 1 →
  align_up p (2 ^ k) = 0.
Proof.
  intros Hk Hp Hbig. rewrite align_up_pow2 by done.
  assert (H2 : 0 < 2 ^ k < 2 ^ 64).
  { split; [apply Z.pow_pos_nonneg; lia|apply Z.pow_lt_mono_r; lia]. }
  assert (Hw : wrap (p + (2 ^ k - 1)) = p + 2 ^ k - 1 - 2 ^ 64).
  { unfold wrap, SIZE_BITS.
    replace (p + (2 ^ k - 1)) with ((p + 2 ^ k - 1 - 2 ^ 64) + 1 * 2 ^ 64) by lia.
    rewrite Z_mod_plus_full. apply Z.mod_small. lia. }
  rewrite Hw, Z.div_small by lia. done.
Qed.

(** X3: [impl::overflow_addition] on two [size_t] values: the flag is set
    exactly when the sum does not fit in 64 bits; without overflow [res] is
    the sum, with overflow it is the sum less [2^64]. *)
Theorem overflow_addition_exact (a b : Z) :
  0 ≤ a < 2 ^ 64 → 0 ≤ b < 2 ^ 64 →
  overflow_addition a b =
    if a + b <? 2 ^ 64 then (false, a + b) else (true, a + b - 2 ^ 64).
Proof.
  intros Ha Hb. unfold overflow_addition.
  destruct (a + b <? 2 ^ 64) eqn:Hs.
  - apply Z.ltb_lt in Hs. rewrite wrap_small by lia.
    f_equal. apply Z.ltb_ge. lia.
  - apply Z.ltb_ge in Hs.
    assert (Hw : wrap (a + b) = a + b - 2 ^ 64).
    { unfold wrap, SIZE_BITS.
      replace (a + b) with ((a + b - 2 ^ 64) + 1 * 2 ^ 64) at 1 by lia.
      rewrite Z_mod_plus_full. apply Z.mod_small. lia. }
    rewrite Hw. f_equal. apply Z.ltb_lt. lia.
Qed.

(** * Further properties of allocation *)

Section MoreAllocation.

Implicit Types (h : gmap nat block) (s : arena) (b : block).

Lemma grow_path_cursor sys bytes al t a bt p t' :
  _active t = Some a → heap t !! a = Some bt → a ≠ fresh t →
  grow_path sys bytes al t = Ret p t' →
  ∃ b', _active t' = Some (fresh t) ∧ heap t' !! fresh t = Some b'
    ∧ cur b' = wrap (p + bytes).
Proof.
  intros Ha Hb Hne H.
  rewrite (grow_path_unfold sys bytes al t a bt Ha Hb Hne) in H.
  destruct (wrap (bytes + al) <? bytes); [done|].
  destruct sys as [d|]; [|done]. cbv zeta in H.
  destruct (wrap (wrap (d + _) - align_up d al) <? bytes); [done|].
  destruct (negb (align_up d al =? 0)); [|done].
  injection H as <- <-. eexists. split; [done|].
  split; [simpl; apply lookup_insert_eq|done].
Qed.

(** After a successful allocation the cursor of the active block is the
    end of the region that was handed out. *)
Lemma allocate_bytes_cursor sys bytes al s p s' :
  wf s → bytes ≠ 0 → allocate_bytes sys bytes al s = Ret p s' →
  ∃ a' b', _active s' = Some a' ∧ heap s' !! a' = Some b'
    ∧ cur b' = wrap (p + bytes).
Proof.
  intros Hwf Hz H. destruct (wf_active_inv s Hwf) as (a & b & Ha & Hb & Hlt).
  rewrite allocate_bytes_eq in H. apply Z.eqb_neq in Hz. rewrite Hz in H.
  unfold bind in H.
  rewrite (try_alloc_at_active_unfold _ _ _ _ _ Ha Hb) in H. cbv zeta in H.
  destruct (wrap (end_ b - _) <? bytes).
  - change (negb (0 =? 0)) with false in H. cbv iota in H.
    destruct (grow_path_cursor _ _ _ _ _ _ _ _ Ha Hb ltac:(lia) H)
      as (b' & ? & ? & ?).
    by exists (fresh s), b'.
  - destruct (negb (align_up (cur b) (effective_alignment al) =? 0)).
    + injection H as <- <-. eexists a, _. split; [done|].
      split; [simpl; apply lookup_insert_eq|done].
    + eapply (grow_path_cursor _ _ _ _ a) in H as (b' & ? & ? & ?);
        [|done|simpl; apply lookup_insert_eq|simpl; lia].
      by eexists _, b'.
Qed.

(** A call that returns although the system allocator hands out nothing
    returns the aligned cursor of the active block. *)
Lemma served_by_active bytes al s a b p s' :
  _active s = Some a → heap s !! a = Some b → bytes ≠ 0 →
  allocate_bytes None bytes al s = Ret p s' →
  p = align_up (cur b) (effective_alignment al).
Proof.
  intros Ha Hb Hz H.
  apply allocate_bytes_None in H as [(? & _)|(_ & Hp & Htry)]; [done|].
  rewrite (try_alloc_at_active_unfold _ _ _ _ _ Ha Hb) in Htry. cbv zeta in Htry.
  destruct (wrap (end_ b - _) <? bytes); by injection Htry as <- _.
Qed.

Lemma consecutive_regions sys s bytes1 al1 p1 s1 bytes2 al2 p2 s2 :
  wf s → 0 < bytes1 → 0 < bytes2 → 0 ≤ al2 < 2 ^ 64 →
  p1 + bytes1 + effective_alignment al2 ≤ 2 ^ 64 →
  allocate_bytes sys bytes1 al1 s = Ret p1 s1 →
  allocate_bytes None bytes2 al2 s1 = Ret p2 s2 →
  p1 + bytes1 ≤ p2 < p1 + bytes1 + effective_alignment al2.
Proof.
  intros Hwf Hb1 Hb2 Hal2 Htop H1 H2.
  assert (Hp1 : 0 ≤ p1).
  { apply allocate_bytes_result in H1 as (_ & c & ->); [|lia].
    apply align_up_nonneg. }
  assert (Hz1 : bytes1 ≠ 0) by lia.
  assert (Hz2 : bytes2 ≠ 0) by lia.
  destruct (allocate_bytes_cursor _ _ _ _ _ _ Hwf Hz1 H1)
    as (a' & b' & Ha' & Hb' & Hcur).
  destruct (effective_alignment_pow2 al2 Hal2) as (k & Hk & Hal').
  assert (H2k : 0 < 2 ^ k) by (apply Z.pow_pos_nonneg; lia).
  rewrite Hal' in Htop.
  rewrite wrap_small in Hcur by lia.
  rewrite (served_by_active _ _ _ _ _ _ _ Ha' Hb' Hz2 H2).
  rewrite Hcur, Hal'.
  assert (Hlo : 0 ≤ p1 + bytes1) by lia.
  assert (Hfit : p1 + bytes1 + 2 ^ k - 1 < 2 ^ 64) by lia.
  pose proof (align_up_bounds (p1 + bytes1) k Hk Hlo Hfit). lia.
Qed.

Lemma seed_ok_update s i b' :
  seed_ok s → _block_size s ≤ capacity b' →
  seed_ok (set_heap (<[i := b']> (heap s)) s).
Proof.
  intros [Hs Hb] Hc. split; [done|]. simpl. intros j x Hj.
  destruct (decide (i = j)) as [->|Hne].
  - rewrite lookup_insert_eq in Hj. by injection Hj as <-.
  - rewrite lookup_insert_ne in Hj by done. by eapply Hb.
Qed.

Lemma seed_ok_grown s a ab d nc :
  seed_ok s → _block_size s ≤ capacity ab → _block_size s ≤ nc →
  seed_ok (grown s a ab d nc).
Proof.
  intros [Hs Hb] Hc Hnc. split; [done|]. simpl. intros j x Hj.
  destruct (decide (a = j)) as [->|Hne].
  - rewrite lookup_insert_eq in Hj. by injection Hj as <-.
  - rewrite lookup_insert_ne in Hj by done.
    destruct (decide (fresh s = j)) as [<-|Hne2].
    + rewrite lookup_insert_eq in Hj. by injection Hj as <-.
    + rewrite lookup_insert_ne in Hj by done. by eapply Hb.
Qed.

Lemma seed_ok_cursor_variant s s' :
  seed_ok s → cursor_variant (heap s) (heap s') →
  _block_size s' = _block_size s → seed_ok s'.
Proof.
  intros [Hs Hb] Hv Hbs. split; [by rewrite Hbs|]. intros j x Hj.
  specialize (Hv j). destruct (heap s !! j) as [bj|] eqn:Hbj; [|congruence].
  destruct Hv as [c Hc]. rewrite Hc in Hj. injection Hj as <-.
  rewrite Hbs. simpl. by eapply Hb.
Qed.

Lemma allocate_bytes_seed sys bytes al s s' :
  wf s → seed_ok s →
  (∃ p, allocate_bytes sys bytes al s = Ret p s')
  ∨ (∃ e, allocate_bytes sys bytes al s = Throw e s') →
  seed_ok s'.
Proof.
  intros Hwf Hseed H.
  destruct (wf_active_inv s Hwf) as (a & b & Ha & Hb & Hlt).
  pose proof (proj2 Hseed a b Hb) as Hcap.
  rewrite allocate_bytes_eq in H.
  destruct (bytes =? 0).
  { destruct H as [[? H]|[? H]]; [|done]. by injection H as _ <-. }
  destruct (first_attempt bytes (effective_alignment al) s a b Ha Hb)
    as (p & c & Htry & _).
  unfold bind in H. rewrite Htry in H.
  set (s1 := set_heap (<[a := set_cur c b]> (heap s)) s) in *.
  assert (Hseed1 : seed_ok s1) by (by apply seed_ok_update).
  destruct (negb (p =? 0)).
  { destruct H as [[? H]|[? H]]; [|done]. by injection H as _ <-. }
  assert (Hb1 : heap s1 !! a = Some (set_cur c b)) by apply lookup_insert_eq.
  rewrite (grow_path_unfold sys bytes _ s1 a _ Ha Hb1) in H by (simpl; lia).
  destruct (wrap (bytes + effective_alignment al) <? bytes).
  { destruct H as [[? H]|[? H]]; [done|]. by injection H as _ <-. }
  destruct sys as [d|].
  2:{ destruct H as [[? H]|[? H]]; [done|]. by injection H as _ <-. }
  cbv zeta in H.
  set (nc := Z.max _ (_block_size s1)) in H.
  assert (Hnc : _block_size s1 ≤ nc) by (unfold nc; lia).
  assert (Hseed2 : seed_ok (grown s1 a (set_cur c b) d nc)).
  { by apply seed_ok_grown. }
  destruct (wrap (wrap (d + nc) - align_up d (effective_alignment al)) <? bytes).
  { destruct H as [[? H]|[? H]]; [done|]. by injection H as _ <-. }
  destruct (negb (align_up d (effective_alignment al) =? 0));
    destruct H as [[? H]|[? H]]; try done; injection H as _ <-;
    apply (seed_ok_update (grown s1 a (set_cur c b) d nc)); done.
Qed.

Lemma rollback_to_seed s m s' :
  wf s → marker_in s m → seed_ok s → rollback_to m s = Ret tt s' → seed_ok s'.
Proof.
  intros Hwf Hm Hseed H.
  destruct (rollback_to_total s m Hwf Hm) as (t & Hrun & _ & Hext & _ & Hvar).
  rewrite Hrun in H. injection H as <-.
  eapply seed_ok_cursor_variant; [done..|]. apply Hext.
Qed.

Lemma make_seed sys sz al ctor s s' :
  wf s → seed_ok s →
  (∃ p, make sys sz al ctor s = Ret p s')
  ∨ (∃ e, make sys sz al ctor s = Throw e s') →
  seed_ok s'.
Proof.
  intros Hwf Hseed H. destruct (wf_active_inv s Hwf) as (a & b & Ha & Hb & _).
  rewrite (make_unfold _ _ _ _ _ _ _ Ha Hb) in H.
  destruct (allocate_bytes sys sz al s) as [p s1|e s1| |] eqn:Halloc.
  - destruct (allocate_bytes_preserves sys sz al s s1 Hwf) as [Hwf1 Hext1];
      [left; by eexists|].
    assert (Hseed1 : seed_ok s1).
    { eapply allocate_bytes_seed; [exact Hwf|done|left; by eexists]. }
    destruct (ctor p) as [e|].
    + assert (Hm : marker_in s1 (Marker (Some a) (cur b))).
      { apply (marker_in_extends s); [done|]. apply live_Some. by eexists. }
      destruct (rollback_to_total s1 _ Hwf1 Hm) as (s2 & Hrun & _).
      pose proof (rollback_to_seed s1 _ s2 Hwf1 Hm Hseed1 Hrun) as Hseed2.
      rewrite Hrun in H. destruct H as [[? H]|[? H]]; [done|].
      by injection H as _ <-.
    + destruct H as [[? H]|[? H]]; [|done]. by injection H as _ <-.
  - assert (Hseed1 : seed_ok s1).
    { eapply allocate_bytes_seed; [exact Hwf|done|right; by eexists]. }
    destruct H as [[? H]|[? H]]; [done|]. by injection H as _ <-.
  - by destruct H as [[? H]|[? H]].
  - by destruct H as [[? H]|[? H]].
Qed.

Lemma arena_ctor_seed sys n s : arena_ctor sys n = Ret tt s → seed_ok s.
Proof.
  unfold arena_ctor, new_block. destruct sys as [d|]; [|done].
  intros H. injection H as <-. split; simpl; [lia|].
  intros i b Hi. apply lookup_insert_Some in Hi as [[_ <-]|[_ Hi]]; [done|].
  by rewrite lookup_empty in Hi.
Qed.

Lemma reachable_seed s : reachable s → seed_ok s.
Proof.
  induction 1 as [sys n s H|s sys bytes al p s' Hr IH H|s sys bytes al e s' Hr IH H
                 |s m s' Hr IH Hm H|s sys sz al ctor p s' Hr IH H
                 |s sys sz al ctor e s' Hr IH H];
    try pose proof (reachable_wf _ Hr) as Hwf.
  - by eapply arena_ctor_seed.
  - eapply allocate_bytes_seed; [exact Hwf|done|left; by eexists].
  - eapply allocate_bytes_seed; [exact Hwf|done|right; by eexists].
  - by eapply rollback_to_seed.
  - eapply make_seed; [exact Hwf|done|left; by eexists].
  - eapply make_seed; [exact Hwf|done|right; by eexists].
Qed.

Lemma step_preserves s s' : wf s → step s s' → wf s' ∧ extends s s'.
Proof.
  intros Hwf [sys bytes al p H|sys bytes al e H|m Hm H
             |sys sz al ctor p H|sys sz al ctor e H].
  - eapply allocate_bytes_preserves; [done|left; by eexists].
  - eapply allocate_bytes_preserves; [done|right; by eexists].
  - destruct (rollback_to_total s m Hwf Hm) as (t & Hrun & ? & ? & _).
    rewrite Hrun in H. by injection H as <-.
  - eapply make_preserves; [done|left; by eexists].
  - eapply make_preserves; [done|right; by eexists].
Qed.

End MoreAllocation.

(** X4: [arena::allocate_bytes], two calls in a row: when the second request
    is served without a new block, its region starts at or after the end
    of the first region, and the gap is smaller than the second request's
    effective alignment; the two regions do not overlap.  The region of
    the first call must end at least one alignment below the top of the
    address space. *)
Theorem consecutive_allocations_disjoint
    (sys : option Z) (s s1 s2 : arena) (bytes1 al1 p1 bytes2 al2 p2 : Z) :
  wf s → 0 < bytes1 → 0 < bytes2 → 0 ≤ al2 < 2 ^ 64 →
  p1 + bytes1 + effective_alignment al2 ≤ 2 ^ 64 →
  allocate_bytes sys bytes1 al1 s = Ret p1 s1 →
  allocate_bytes None bytes2 al2 s1 = Ret p2 s2 →
  p1 + bytes1 ≤ p2 < p1 + bytes1 + effective_alignment al2.
Proof. apply consecutive_regions. Qed.

(** X5: [arena::arena] and the growth step of [allocate_bytes]: in every
    reachable arena the growth seed is at least 1024 and every block has at
    least the capacity of the growth seed. *)
Theorem blocks_at_least_seed (s : arena) :
  reachable s →
  1024 ≤ _block_size s
  ∧ ∀ i b, heap s !! i = Some b → _block_size s ≤ capacity b.
Proof. apply reachable_seed. Qed.

(** X6: Every public member function ([allocate_bytes], [rollback_to] with a
    marker of the arena, [make]), whether it returns or throws, keeps every
    existing block allocated at the same [data], [end] and [capacity], and
    leaves [_head] and the growth seed alone; the arena stays well-formed. *)
Theorem blocks_never_move (s s' : arena) :
  wf s → step s s' →
  wf s'
  ∧ (∀ i b, heap s !! i = Some b →
       ∃ b', heap s' !! i = Some b'
         ∧ data b' = data b ∧ end_ b' = end_ b ∧ capacity b' = capacity b)
  ∧ _head s' = _head s
  ∧ _block_size s' = _block_size s.
Proof.
  intros Hwf Hstep.
  destruct (step_preserves s s' Hwf Hstep) as (Hwf' & _ & Hb & Hh & Hs).
  done.
Qed.

(** X7: In every reachable arena [_head] and [_active] point to allocated
    blocks, and every [next] link leads to an allocated block created
    later than its source, so the chain has no cycle. *)
Theorem reachable_arena_well_formed (s : arena) :
  reachable s →
  (∃ h bh, _head s = Some h ∧ heap s !! h = Some bh)
  ∧ (∃ a ba, _active s = Some a ∧ heap s !! a = Some ba)
  ∧ (∀ i b j, heap s !! i = Some b → next b = Some j →
       (i < j)%nat ∧ is_Some (heap s !! j)).
Proof.
  intros Hr. destruct (reachable_wf s Hr) as (Hl & Hh & Ha).
  split; [by apply live_inv|]. split; [by apply live_inv|].
  intros i b j Hi Hn. destruct (links_ok_lookup _ _ _ _ Hl Hi) as [_ H].
  by rewrite Hn in H.
Qed.

(** X8: [arena::allocate_bytes] throws no exception other than
    [std::bad_alloc]. *)
Theorem allocate_bytes_throws_bad_alloc
    (sys : option Z) (bytes alignment : Z) (s s' : arena) (e : exn) :
  allocate_bytes sys bytes alignment s = Throw e s' → e = bad_alloc.
Proof. apply allocate_bytes_total_throw. Qed.

(** * Markers, teardown and the adapter *)

Section MoreRollback.

Implicit Types (h : gmap nat block) (s : arena) (b : block).

Lemma cursor_variant_nxt h h' j : cursor_variant h h' → nxt h' j = nxt h j.
Proof.
  intros Hv. specialize (Hv j). unfold nxt.
  destruct (h !! j) as [bj|]; [|by rewrite Hv].
  destruct Hv as [c ->]. done.
Qed.

Lemma after_cursor_variant h h' x y :
  cursor_variant h h' → after h' x y → after h x y.
Proof.
  intros Hv. apply after_mono. intros j k Hjk.
  by rewrite <- (cursor_variant_nxt h h' j Hv).
Qed.

Lemma nxt_None_no_after h i j : nxt h i = None → ¬ after h i j.
Proof. intros Hn Haft. inversion Haft; congruence. Qed.

Lemma from_next h k b j :
  h !! k = Some b → from h (Some k) j ↔ j = k ∨ from h (next b) j.
Proof.
  intros Hk. assert (Hn : nxt h k = next b) by (unfold nxt; by rewrite Hk).
  split.
  - intros [Hj|(k' & Hk' & Haft)]; [left; congruence|].
    injection Hk' as <-. right.
    inversion Haft as [? ? H|? k2 ? H Haft2]; subst; rewrite Hn in H.
    + by left.
    + right. by exists k2.
  - intros [->|[Hj|(k' & Hk' & Haft)]]; [by left| |].
    + right. exists k. split; [done|]. apply after_next. congruence.
    + right. exists k. split; [done|].
      eapply after_trans; [|done]. congruence.
Qed.

Lemma alloc_shape_later_empty s a b s' :
  wf s → _active s = Some a → heap s !! a = Some b →
  later_empty s → alloc_shape s a b s' → later_empty s'.
Proof.
  intros (Hl & _) Ha Hb Hle Hshape.
  pose proof (links_ok_lookup _ _ _ _ Hl Hb) as [Hlt _].
  destruct Hshape as [c|c d nc c']; intros a' j bj Ha' Haft Hj; simpl in *.
  - assert (a' = a) as -> by congruence.
    apply (after_update _ _ b) in Haft; [|done..].
    assert (j ≠ a) by (apply (after_lt _ _ _ _ Hl) in Haft; lia).
    rewrite lookup_insert_ne in Hj by done. by eapply Hle.
  - injection Ha' as <-. exfalso. eapply nxt_None_no_after; [|exact Haft].
    unfold nxt. by rewrite lookup_insert_eq.
Qed.

Lemma rollback_later_empty s m s' :
  wf s → marker_in s m → rollback_to m s = Ret tt s' → later_empty s'.
Proof.
  intros Hwf Hm H. pose proof Hwf as (Hl & _).
  apply live_inv in Hm as (i & b & Hm & Hb).
  destruct (rollback_to_run s m i b Hwf Hm Hb)
    as (t & Hrun & Hact & _ & _ & _ & _ & Hreset & _ & Hvar).
  rewrite Hrun in H. injection H as <-.
  intros a' j bj Ha' Haft Hj.
  assert (a' = i) as -> by congruence.
  apply (after_cursor_variant _ _ _ _ Hvar) in Haft.
  destruct (after_live _ _ _ _ Hl Haft) as [bj0 Hbj0].
  rewrite (Hreset j bj0 Haft Hbj0) in Hj. by injection Hj as <-.
Qed.

Lemma reachable_later_empty s : reachable s → later_empty s.
Proof.
  induction 1 as [sys n s H|s sys bytes al p s' Hr IH H|s sys bytes al e s' Hr IH H
                 |s m s' Hr IH Hm H|s sys sz al ctor p s' Hr IH H
                 |s sys sz al ctor e s' Hr IH H];
    try pose proof (reachable_wf _ Hr) as Hwf;
    try destruct (wf_active_inv s Hwf) as (a & b & Ha & Hb & _).
  - unfold arena_ctor, new_block in H. destruct sys as [d|]; [|done].
    injection H as <-. intros a j bj Ha Haft _. simpl in *.
    injection Ha as <-. exfalso. eapply nxt_None_no_after; [|exact Haft].
    unfold nxt. by rewrite lookup_insert_eq.
  - eapply (alloc_shape_later_empty s a b); try done.
    eapply allocate_bytes_shape; [done..|left; by eexists].
  - eapply (alloc_shape_later_empty s a b); try done.
    eapply allocate_bytes_shape; [done..|right; by eexists].
  - by eapply rollback_later_empty.
  - rewrite (make_unfold _ _ _ _ _ _ _ Ha Hb) in H.
    destruct (allocate_bytes sys sz al s) as [q s1| | |] eqn:Halloc; try done.
    destruct (ctor q); [by destruct (rollback_to _ s1)|].
    injection H as _ <-.
    eapply (alloc_shape_later_empty s a b); try done.
    eapply allocate_bytes_shape; [done..|left; by eexists].
  - rewrite (make_unfold _ _ _ _ _ _ _ Ha Hb) in H.
    destruct (allocate_bytes sys sz al s) as [q s1|e1 s1| |] eqn:Halloc; try done.
    + destruct (allocate_bytes_preserves sys sz al s s1 Hwf) as [Hwf1 Hext1];
        [left; by eexists|].
      destruct (ctor q); [|done].
      assert (Hm : marker_in s1 (Marker (Some a) (cur b))).
      { apply (marker_in_extends s); [done|]. apply live_Some. by eexists. }
      destruct (rollback_to_total s1 _ Hwf1 Hm) as (s2 & Hrun & _).
      rewrite Hrun in H. injection H as _ <-.
      by eapply rollback_later_empty.
    + injection H as _ <-.
      eapply (alloc_shape_later_empty s a b); try done.
      eapply allocate_bytes_shape; [done..|right; by eexists].
Qed.

(** The loop of [rollback_to] changes nothing when the blocks it walks
    are empty already. *)
Lemma rollback_loop_noop fuel : ∀ s p,
  links_ok (heap s) (fresh s) →
  (∀ k, p = Some k → is_Some (heap s !! k) ∧ (fresh s - k ≤ fuel)%nat) →
  (∀ j bj, from (heap s) p j → heap s !! j = Some bj → cur bj = data bj) →
  rollback_loop fuel p s = Ret tt s.
Proof.
  induction fuel as [|fuel IH]; intros s p Hl Hp Hempty.
  - destruct p as [k|]; [|done].
    destruct (Hp k eq_refl) as [[b Hb] Hfuel].
    pose proof (links_ok_lookup _ _ _ _ Hl Hb) as [Hlt _]. lia.
  - destruct p as [k|]; [|done]. simpl.
    destruct (Hp k eq_refl) as [[b Hb] Hfuel].
    pose proof (links_ok_lookup _ _ _ _ Hl Hb) as [Hlt Hnb].
    assert (Hcur : cur b = data b) by (apply (Hempty k); [by left|done]).
    unfold bind at 1. rewrite (deref_live _ _ _ Hb).
    unfold bind at 1. rewrite (modify_live _ _ _ _ Hb).
    rewrite <- Hcur, set_cur_cur, insert_id, set_heap_id by done.
    unfold bind at 1. rewrite (deref_live _ _ _ Hb).
    apply IH; [done| |].
    + intros k' Hk'. rewrite Hk' in Hnb. destruct Hnb. split; [done|lia].
    + intros j bj Hf. apply Hempty. apply (from_next _ _ _ _ Hb). by right.
Qed.

Lemma free_loop_spec h0 n fuel :
  links_ok h0 n → ∀ t p,
  (∀ k, p = Some k →
     is_Some (h0 !! k) ∧ (n - k ≤ fuel)%nat
     ∧ ∀ j, (k ≤ j)%nat → heap t !! j = h0 !! j) →
  ∃ h', free_loop fuel p t = Ret tt (set_heap h' t)
    ∧ (∀ j, from h0 p j → h' !! j = None)
    ∧ (∀ j, ¬ from h0 p j → h' !! j = heap t !! j).
Proof.
  intros Hl. induction fuel as [|fuel IH]; intros t p Hp.
  - destruct p as [k|].
    + destruct (Hp k eq_refl) as ([b Hb] & Hfuel & _).
      pose proof (links_ok_lookup _ _ _ _ Hl Hb) as [Hlt _]. lia.
    + exists (heap t). split; [by rewrite set_heap_id|].
      split; [|done]. intros j [?|(k & ? & _)]; done.
  - destruct p as [k|]; simpl.
    2:{ exists (heap t). split; [by rewrite set_heap_id|].
        split; [|done]. intros j [?|(k & ? & _)]; done. }
    destruct (Hp k eq_refl) as ([b Hb] & Hfuel & Hsame).
    pose proof (links_ok_lookup _ _ _ _ Hl Hb) as [Hlt Hnb].
    assert (Hbt : heap t !! k = Some b) by (rewrite Hsame; [done|lia]).
    set (t1 := set_heap (delete k (heap t)) t).
    assert (Hp1 : ∀ k', next b = Some k' →
              is_Some (h0 !! k') ∧ (n - k' ≤ fuel)%nat
              ∧ ∀ j, (k' ≤ j)%nat → heap t1 !! j = h0 !! j).
    { intros k' Hk'. rewrite Hk' in Hnb. destruct Hnb as [Hkk' Hlive].
      split; [done|]. split; [lia|]. intros j Hj. simpl.
      rewrite lookup_delete_ne by lia. apply Hsame. lia. }
    destruct (IH t1 (next b) Hp1) as (h' & Hrun & Hin & Hout).
    assert (Hk_out : ¬ from h0 (next b) k).
    { intros [Hf|(k' & Hf & Haft)]; rewrite Hf in Hnb.
      - lia.
      - apply (after_lt _ _ _ _ Hl) in Haft. lia. }
    exists h'. split; [|split].
    + unfold bind at 1. rewrite (deref_live _ _ _ Hbt).
      unfold bind at 1. unfold delete_block at 1.
      unfold bind at 1. rewrite (deref_live _ _ _ Hbt).
      fold t1. exact Hrun.
    + intros j Hf. apply (from_next _ _ _ _ Hb) in Hf as [->|Hf]; [|by apply Hin].
      rewrite (Hout k Hk_out). simpl. apply lookup_delete_eq.
    + intros j Hnot.
      assert (j ≠ k) by (intros ->; apply Hnot; by left).
      rewrite Hout.
      * simpl. by rewrite lookup_delete_ne.
      * intros Hf. apply Hnot. apply (from_next _ _ _ _ Hb). by right.
Qed.

Lemma free_all_run s :
  wf s →
  ∃ s', free_all s = Ret tt s'
    ∧ _head s' = None ∧ _active s' = None
    ∧ (∀ j, from (heap s) (_head s) j → heap s' !! j = None)
    ∧ (∀ j, ¬ from (heap s) (_head s) j → heap s' !! j = heap s !! j).
Proof.
  intros (Hl & Hh & _).
  destruct (free_loop_spec (heap s) (fresh s) (fresh s) Hl s (_head s))
    as (h' & Hrun & Hin & Hout).
  { intros k Hk. rewrite Hk in Hh. apply live_Some in Hh.
    split; [done|]. split; [lia|done]. }
  exists (set_active None (set_head None (set_heap h' s))).
  split; [|done].
  unfold free_all. unfold bind at 1. unfold get_head.
  unfold bind at 1. by rewrite Hrun.
Qed.

Lemma from_live h n p j : links_ok h n → live h p → from h p j → is_Some (h !! j).
Proof.
  intros Hl Hp [->|(k & -> & Haft)]; [done|]. by eapply after_live.
Qed.

Lemma allocated_only_spec s :
  allocated_only s → wf s ∧ all_linked s ∧ active_is_tail s.
Proof.
  induction 1 as [sys n s H|s sys bytes al p s' _ IH H|s sys bytes al e s' _ IH H].
  - split; [by eapply arena_ctor_wf|by eapply arena_ctor_linked].
  - destruct IH as (Hwf & Hall & Htail). split.
    + eapply allocate_bytes_preserves; [done|left; by eexists].
    + eapply allocate_bytes_linked; [done..|left; by eexists].
  - destruct IH as (Hwf & Hall & Htail). split.
    + eapply allocate_bytes_preserves; [done|right; by eexists].
    + eapply allocate_bytes_linked; [done..|right; by eexists].
Qed.

End MoreRollback.

(** X9: [arena::create_marker] followed at once by [arena::rollback_to]:
    capturing a marker does not change the arena, and rolling back to the
    marker just captured leaves every block, cursor and link and [_active]
    as they are. *)
Theorem marker_round_trip (s s1 : arena) (m : marker) :
  reachable s → create_marker s = Ret m s1 →
  s1 = s ∧ rollback_to m s = Ret tt s.
Proof.
  intros Hr Hm. pose proof (reachable_wf s Hr) as Hwf.
  pose proof (reachable_later_empty s Hr) as Hle.
  destruct (wf_active_inv s Hwf) as (a & b & Ha & Hb & _).
  rewrite (create_marker_run _ _ _ Ha Hb) in Hm. injection Hm as <- <-.
  split; [done|].
  rewrite (rollback_to_unfold s (Marker (Some a) (cur b)) a b eq_refl Hb).
  simpl m_cur.
  assert (Hs : set_heap (<[a := set_cur (cur b) b]> (heap s))
                 (set_active (Some a) s) = s).
  { rewrite set_cur_cur. destruct s as [h f bs hd ac]. simpl in *.
    unfold set_heap, set_active. simpl. rewrite insert_id by done.
    by rewrite Ha. }
  rewrite Hs. destruct Hwf as (Hl & _).
  pose proof (links_ok_lookup _ _ _ _ Hl Hb) as [Hlt Hnb].
  apply rollback_loop_noop; [done| |].
  - intros k Hk. rewrite Hk in Hnb. destruct Hnb. split; [done|lia].
  - intros j bj Hf Hj. apply (Hle a j bj Ha); [|done].
    destruct Hf as [Hf|(k & Hf & Haft)].
    + apply after_next. unfold nxt. by rewrite Hb.
    + eapply after_trans; [|done]. unfold nxt. by rewrite Hb.
Qed.

(** X10: [arena::free_all], on a well-formed arena: the loop ends, [_head] and
    [_active] are null afterwards, exactly the blocks on the chain from
    [_head] have been deleted, and a block that is not on that chain is
    still allocated, unchanged. *)
Theorem free_all_releases_chain (s : arena) :
  wf s →
  ∃ s', free_all s = Ret tt s'
    ∧ _head s' = None ∧ _active s' = None
    ∧ (∀ j, from (heap s) (_head s) j → heap s' !! j = None)
    ∧ (∀ j, ¬ from (heap s) (_head s) j → heap s' !! j = heap s !! j).
Proof. apply free_all_run. Qed.

(** X11: [arena::~arena] after a life of [allocate_bytes] calls only: the
    destructor deletes every block the arena ever created; none is left
    allocated. *)
Theorem teardown_releases_everything (s : arena) :
  allocated_only s →
  ∃ s', arena_dtor s = Ret tt s'
    ∧ heap s' = ∅ ∧ _head s' = None ∧ _active s' = None.
Proof.
  intros Hao. destruct (allocated_only_spec s Hao) as (Hwf & Hall & _).
  destruct (free_all_run s Hwf) as (s' & Hrun & Hh & Ha & Hin & Hout).
  exists s'. split; [done|]. split; [|done].
  apply map_eq. intros j. rewrite lookup_empty.
  destruct (heap s !! j) as [bj|] eqn:Hj.
  - apply Hin, Hall. by eexists.
  - rewrite Hout; [done|]. intros Hf.
    destruct Hwf as (Hl & Hlive & _).
    destruct (from_live _ _ _ _ Hl Hlive Hf) as [? ?]. congruence.
Qed.

(** X12: [cma_resource::do_allocate] and [do_deallocate]: deallocating changes
    nothing in the arena, so a later allocation through the adapter that
    is served without a new block does not hand the deallocated bytes out
    again; its region starts at or after the end of the deallocated one. *)
Theorem deallocate_does_not_recycle
    (sys : option Z) (s s1 s1' s2 : arena) (bytes1 al1 p1 bytes2 al2 p2 : Z) :
  wf s → 0 < bytes1 → 0 < bytes2 → 0 ≤ al2 < 2 ^ 64 →
  p1 + bytes1 + effective_alignment al2 ≤ 2 ^ 64 →
  do_allocate sys bytes1 al1 s = Ret p1 s1 →
  do_deallocate p1 bytes1 al1 s1 = Ret tt s1' →
  do_allocate None bytes2 al2 s1' = Ret p2 s2 →
  s1' = s1 ∧ p1 + bytes1 ≤ p2.
Proof.
  intros Hwf Hb1 Hb2 Hal2 Htop H1 Hd H2.
  unfold do_deallocate, ret in Hd. injection Hd as <-.
  split; [done|].
  by destruct (consecutive_regions sys s bytes1 al1 p1 s1 bytes2 al2 p2 s2).
Qed.

(** * Growth, failure and replay *)

(** X13: [arena::allocate_bytes], growth step: when the first attempt returns
    null, [bytes + alignment] fits in 64 bits, twice the active block's
    capacity fits in 64 bits and the system allocator supplies a block at a
    non-null address inside the address space, the call creates exactly
    one block, of capacity at least twice the old active block's capacity,
    at least [bytes] plus the effective alignment and at least the growth
    seed; links it behind the old active block, makes it active, and
    serves the request from it. *)
Theorem growth_creates_one_block
    (s s1 : arena) (bytes alignment d : Z) (a : nat) (b : block) :
  wf s → 0 < bytes < 2 ^ 64 → 0 ≤ alignment < 2 ^ 64 →
  _active s = Some a → heap s !! a = Some b →
  try_alloc_at_active bytes (effective_alignment alignment) s = Ret 0 s1 →
  bytes + effective_alignment alignment < 2 ^ 64 →
  0 ≤ capacity b * 2 < 2 ^ 64 →
  0 < d →
  d + Z.max (Z.max (wrap (capacity b * 2))
                   (bytes + effective_alignment alignment))
            (_block_size s) < 2 ^ 64 →
  ∃ p s' nb, allocate_bytes (Some d) bytes alignment s = Ret p s'
    ∧ fresh s' = S (fresh s)
    ∧ _active s' = Some (fresh s)
    ∧ nxt (heap s') a = Some (fresh s)
    ∧ heap s' !! fresh s = Some nb
    ∧ 2 * capacity b ≤ capacity nb
    ∧ bytes + effective_alignment alignment ≤ capacity nb
    ∧ _block_size s ≤ capacity nb
    ∧ data nb ≤ p ∧ p + bytes ≤ end_ nb.
Proof. apply growth_policy. Qed.

(** X14: [arena::allocate_bytes], failed growth: when the active block rejects
    the request and either the system allocator fails or
    [bytes + alignment] overflows, the call throws [std::bad_alloc] and the
    arena is exactly as before the call. *)
Theorem failed_growth_leaves_arena
    (sys : option Z) (s : arena) (bytes alignment : Z) (a : nat) (b : block) :
  wf s → 0 < bytes < 2 ^ 64 → 0 ≤ alignment < 2 ^ 64 →
  _active s = Some a → heap s !! a = Some b →
  wrap (end_ b - align_up (cur b) (effective_alignment alignment)) < bytes →
  sys = None ∨ 2 ^ 64 ≤ bytes + effective_alignment alignment →
  allocate_bytes sys bytes alignment s = Throw bad_alloc s.
Proof.
  intros Hwf Hbytes Hal Ha Hb Hrej Hwhy.
  assert (Hlt : (a < fresh s)%nat).
  { destruct Hwf as (Hl & _). by destruct (links_ok_lookup _ _ _ _ Hl Hb). }
  destruct (effective_alignment_pow2 alignment Hal) as (k & Hk & Hal').
  assert (H2k : 0 < 2 ^ k < 2 ^ 64).
  { split; [apply Z.pow_pos_nonneg; lia|apply Z.pow_lt_mono_r; lia]. }
  rewrite allocate_bytes_eq.
  replace (bytes =? 0) with false by (symmetry; apply Z.eqb_neq; lia).
  unfold bind. rewrite (try_alloc_at_active_unfold _ _ _ _ _ Ha Hb). cbv zeta.
  apply Z.ltb_lt in Hrej. rewrite Hrej.
  change (negb (0 =? 0)) with false. cbv iota.
  rewrite (grow_path_unfold sys bytes _ s a b Ha Hb) by lia.
  destruct Hwhy as [->|Hbig].
  - by destruct (wrap (bytes + effective_alignment alignment) <? bytes).
  - pose proof (overflow_addition_true bytes (effective_alignment alignment)
                  ltac:(lia) ltac:(lia) Hbig) as Hovf.
    unfold overflow_addition in Hovf. simpl in Hovf. by rewrite Hovf.
Qed.

(** X15: [arena::try_alloc_at_active], as long as the aligned cursor lies
    inside the active block: the attempt either returns null and changes
    nothing, or returns an address at or after the old cursor and moves
    the cursor to the end of the returned region, still inside the block. *)
Theorem attempt_stays_in_bounds
    (bytes k p : Z) (s s' : arena) (a : nat) (b : block) :
  _active s = Some a → heap s !! a = Some b →
  0 ≤ k < 64 → 0 ≤ bytes →
  0 ≤ data b ≤ cur b → cur b ≤ end_ b < 2 ^ 64 →
  cur b + 2 ^ k - 1 < 2 ^ 64 →
  align_up (cur b) (2 ^ k) ≤ end_ b →
  try_alloc_at_active bytes (2 ^ k) s = Ret p s' →
  (p = 0 ∧ s' = s)
  ∨ (∃ b', heap s' !! a = Some b' ∧ same_storage b b'
       ∧ cur b ≤ p ∧ p + bytes = cur b' ∧ cur b' ≤ end_ b').
Proof. apply try_alloc_in_bounds. Qed.

(** X16: [arena::rollback_to] after requests that the marker's block served:
    rolling back to the marker and issuing the same requests again returns
    the same addresses. *)
Theorem replay_reproduces_addresses
    (reqs : list (Z * Z)) (s s1 : arena) (m : marker) (ps : list Z) :
  wf s → create_marker s = Ret m s →
  allocate_all reqs s = Ret ps s1 →
  ∃ s2 s3, rollback_to m s1 = Ret tt s2 ∧ allocate_all reqs s2 = Ret ps s3.
Proof. apply replay_within_block. Qed.

(** X17: [arena::make] whose constructor throws after the active block served
    the allocation: the next request of the same size and alignment gets
    the address the constructor was run at. *)
Theorem failed_make_frees_its_region
    (sz al : Z) (ctor : Z → option nat) (e : nat) (s s' : arena) :
  wf s → make None sz al ctor s = Throw (ctor_failure e) s' →
  ∃ p s'', ctor p = Some e ∧ allocate_bytes None sz al s' = Ret p s''.
Proof. apply failed_make_within_block. Qed.


(** * Instances of the further theorems *)

Lemma align_up_least_witness :
  0 ≤ 4 < 64 ∧ 0 ≤ 4996 ∧ 4996 + 2 ^ 4 - 1 < 2 ^ 64
  ∧ 4996 ≤ align_up 4996 (2 ^ 4)
  ∧ align_up 4996 (2 ^ 4) mod 2 ^ 4 = 0
  ∧ (4996 ≤ 5024 → 5024 mod 2 ^ 4 = 0 → align_up 4996 (2 ^ 4) ≤ 5024)
  ∧ (4996 mod 2 ^ 4 = 0 → align_up 4996 (2 ^ 4) = 4996).
Proof.
  assert (H1 : 0 ≤ 4 < 64) by lia.
  assert (H2 : 0 ≤ 4996) by lia.
  assert (H3 : 4996 + 2 ^ 4 - 1 < 2 ^ 64) by lia.
  split; [exact H1|]. split; [exact H2|]. split; [exact H3|].
  exact (align_up_least 4996 4 5024 H1 H2 H3).
Defined.

Lemma align_up_wraps_to_null_witness :
  0 ≤ 4 < 64 ∧ 0 ≤ 2 ^ 64 - 8 < 2 ^ 64 ∧ 2 ^ 64 ≤ 2 ^ 64 - 8 + 2 ^ 4 - 1
  ∧ align_up (2 ^ 64 - 8) (2 ^ 4) = 0.
Proof.
  assert (H1 : 0 ≤ 4 < 64) by lia.
  assert (H2 : 0 ≤ 2 ^ 64 - 8 < 2 ^ 64) by lia.
  assert (H3 : 2 ^ 64 ≤ 2 ^ 64 - 8 + 2 ^ 4 - 1) by lia.
  split; [exact H1|]. split; [exact H2|]. split; [exact H3|].
  exact (align_up_wraps_to_null (2 ^ 64 - 8) 4 H1 H2 H3).
Defined.

Lemma overflow_addition_exact_witness :
  0 ≤ 2 ^ 64 - 8 < 2 ^ 64 ∧ 0 ≤ 16 < 2 ^ 64
  ∧ overflow_addition (2 ^ 64 - 8) 16 =
      if 2 ^ 64 - 8 + 16 <? 2 ^ 64 then (false, 2 ^ 64 - 8 + 16)
      else (true, 2 ^ 64 - 8 + 16 - 2 ^ 64).
Proof.
  assert (H1 : 0 ≤ 2 ^ 64 - 8 < 2 ^ 64) by lia.
  assert (H2 : 0 ≤ 16 < 2 ^ 64) by lia.
  split; [exact H1|]. split; [exact H2|].
  exact (overflow_addition_exact (2 ^ 64 - 8) 16 H1 H2).
Defined.

Lemma consecutive_allocations_disjoint_witness :
  wf arena_1024 ∧ 0 < 900 ∧ 0 < 100 ∧ 0 ≤ 16 < 2 ^ 64
  ∧ 4096 + 900 + effective_alignment 16 ≤ 2 ^ 64
  ∧ allocate_bytes None 900 8 arena_1024 = Ret 4096 arena_marked
  ∧ allocate_bytes None 100 16 arena_marked
    = Ret 5008 (Arena (<[0%nat := Block 4096 5108 5120 None 1024]> ∅)
                      1 1024 (Some 0%nat) (Some 0%nat))
  ∧ 4096 + 900 ≤ 5008 < 4096 + 900 + effective_alignment 16.
Proof.
  assert (Hwf : wf arena_1024).
  { refine (bool_decide_unpack _ _). vm_compute. exact I. }
  assert (H1 : 0 < 900) by lia.
  assert (H2 : 0 < 100) by lia.
  assert (H3 : 0 ≤ 16 < 2 ^ 64) by lia.
  assert (H4 : 4096 + 900 + effective_alignment 16 ≤ 2 ^ 64).
  { vm_compute. discriminate. }
  assert (H5 : allocate_bytes None 900 8 arena_1024 = Ret 4096 arena_marked).
  { vm_compute. reflexivity. }
  assert (H6 : allocate_bytes None 100 16 arena_marked
               = Ret 5008 (Arena (<[0%nat := Block 4096 5108 5120 None 1024]> ∅)
                                 1 1024 (Some 0%nat) (Some 0%nat))).
  { vm_compute. reflexivity. }
  do 7 (split; [assumption|]).
  exact (consecutive_allocations_disjoint None arena_1024 arena_marked _
           900 8 4096 100 16 5008 Hwf H1 H2 H3 H4 H5 H6).
Defined.

Lemma blocks_at_least_seed_witness :
  reachable arena_grown
  ∧ 1024 ≤ _block_size arena_grown
  ∧ ∀ i b, heap arena_grown !! i = Some b → _block_size arena_grown ≤ capacity b.
Proof.
  split; [exact arena_grown_reachable|].
  exact (blocks_at_least_seed arena_grown arena_grown_reachable).
Defined.

Lemma blocks_never_move_witness :
  wf arena_marked ∧ step arena_marked arena_grown
  ∧ wf arena_grown
  ∧ (∀ i b, heap arena_marked !! i = Some b →
       ∃ b', heap arena_grown !! i = Some b'
         ∧ data b' = data b ∧ end_ b' = end_ b ∧ capacity b' = capacity b)
  ∧ _head arena_grown = _head arena_marked
  ∧ _block_size arena_grown = _block_size arena_marked.
Proof.
  assert (Hwf : wf arena_marked).
  { refine (bool_decide_unpack _ _). vm_compute. exact I. }
  assert (Hstep : step arena_marked arena_grown).
  { apply (step_allocate _ _ (Some 8192) 200 8 8192). vm_compute. reflexivity. }
  split; [exact Hwf|]. split; [exact Hstep|].
  exact (blocks_never_move arena_marked arena_grown Hwf Hstep).
Defined.

Lemma reachable_arena_well_formed_witness :
  reachable arena_grown
  ∧ (∃ h bh, _head arena_grown = Some h ∧ heap arena_grown !! h = Some bh)
  ∧ (∃ a ba, _active arena_grown = Some a ∧ heap arena_grown !! a = Some ba)
  ∧ (∀ i b j, heap arena_grown !! i = Some b → next b = Some j →
       (i < j)%nat ∧ is_Some (heap arena_grown !! j)).
Proof.
  split; [exact arena_grown_reachable|].
  exact (reachable_arena_well_formed arena_grown arena_grown_reachable).
Defined.

Lemma allocate_bytes_throws_bad_alloc_witness :
  allocate_bytes None 200 8 arena_marked = Throw bad_alloc arena_marked
  ∧ bad_alloc = bad_alloc.
Proof.
  assert (H : allocate_bytes None 200 8 arena_marked
              = Throw bad_alloc arena_marked).
  { vm_compute. reflexivity. }
  split; [exact H|].
  exact (allocate_bytes_throws_bad_alloc None 200 8 arena_marked arena_marked
           bad_alloc H).
Defined.

Lemma marker_round_trip_witness :
  reachable arena_rolled_back
  ∧ create_marker arena_rolled_back
    = Ret (Marker (Some 0%nat) 4996) arena_rolled_back
  ∧ arena_rolled_back = arena_rolled_back
  ∧ rollback_to (Marker (Some 0%nat) 4996) arena_rolled_back
    = Ret tt arena_rolled_back.
Proof.
  assert (H : create_marker arena_rolled_back
              = Ret (Marker (Some 0%nat) 4996) arena_rolled_back).
  { vm_compute. reflexivity. }
  split; [exact arena_rolled_back_reachable|]. split; [exact H|].
  exact (marker_round_trip arena_rolled_back arena_rolled_back
           (Marker (Some 0%nat) 4996) arena_rolled_back_reachable H).
Defined.

Lemma free_all_releases_chain_witness :
  wf arena_grown
  ∧ ∃ s', free_all arena_grown = Ret tt s'
      ∧ _head s' = None ∧ _active s' = None
      ∧ (∀ j, from (heap arena_grown) (_head arena_grown) j → heap s' !! j = None)
      ∧ (∀ j, ¬ from (heap arena_grown) (_head arena_grown) j →
           heap s' !! j = heap arena_grown !! j).
Proof.
  assert (Hwf : wf arena_grown).
  { refine (bool_decide_unpack _ _). vm_compute. exact I. }
  split; [exact Hwf|].
  exact (free_all_releases_chain arena_grown Hwf).
Defined.

Lemma teardown_releases_everything_witness :
  allocated_only arena_grown
  ∧ ∃ s', arena_dtor arena_grown = Ret tt s'
      ∧ heap s' = ∅ ∧ _head s' = None ∧ _active s' = None.
Proof.
  assert (H : allocated_only arena_grown).
  { eapply only_allocate; [|exact arena_marked_grows].
    eapply only_allocate; [|exact arena_1024_fill].
    eapply only_ctor. exact arena_1024_ctor. }
  split; [exact H|].
  exact (teardown_releases_everything arena_grown H).
Defined.

Lemma deallocate_does_not_recycle_witness :
  wf arena_1024 ∧ 0 < 900 ∧ 0 < 100 ∧ 0 ≤ 16 < 2 ^ 64
  ∧ 4096 + 900 + effective_alignment 16 ≤ 2 ^ 64
  ∧ do_allocate None 900 8 arena_1024 = Ret 4096 arena_marked
  ∧ do_deallocate 4096 900 8 arena_marked = Ret tt arena_marked
  ∧ do_allocate None 100 16 arena_marked
    = Ret 5008 (Arena (<[0%nat := Block 4096 5108 5120 None 1024]> ∅)
                      1 1024 (Some 0%nat) (Some 0%nat))
  ∧ arena_marked = arena_marked ∧ 4096 + 900 ≤ 5008.
Proof.
  assert (Hwf : wf arena_1024).
  { refine (bool_decide_unpack _ _). vm_compute. exact I. }
  assert (H1 : 0 < 900) by lia.
  assert (H2 : 0 < 100) by lia.
  assert (H3 : 0 ≤ 16 < 2 ^ 64) by lia.
  assert (H4 : 4096 + 900 + effective_alignment 16 ≤ 2 ^ 64).
  { vm_compute. discriminate. }
  assert (H5 : do_allocate None 900 8 arena_1024 = Ret 4096 arena_marked).
  { vm_compute. reflexivity. }
  assert (H6 : do_deallocate 4096 900 8 arena_marked = Ret tt arena_marked).
  { reflexivity. }
  assert (H7 : do_allocate None 100 16 arena_marked
               = Ret 5008 (Arena (<[0%nat := Block 4096 5108 5120 None 1024]> ∅)
                                 1 1024 (Some 0%nat) (Some 0%nat))).
  { vm_compute. reflexivity. }
  do 8 (split; [assumption|]).
  exact (deallocate_does_not_recycle None arena_1024 arena_marked arena_marked _
           900 8 4096 100 16 5008 Hwf H1 H2 H3 H4 H5 H6 H7).
Defined.

Lemma growth_creates_one_block_witness :
  wf arena_marked ∧ 0 < 200 < 2 ^ 64 ∧ 0 ≤ 8 < 2 ^ 64
  ∧ _active arena_marked = Some 0%nat
  ∧ heap arena_marked !! 0%nat = Some (Block 4096 4996 5120 None 1024)
  ∧ try_alloc_at_active 200 (effective_alignment 8) arena_marked
    = Ret 0 arena_marked
  ∧ 200 + effective_alignment 8 < 2 ^ 64
  ∧ 0 ≤ 1024 * 2 < 2 ^ 64
  ∧ 0 < 8192
  ∧ 8192 + Z.max (Z.max (wrap (1024 * 2)) (200 + effective_alignment 8))
                 (_block_size arena_marked) < 2 ^ 64
  ∧ ∃ p s' nb, allocate_bytes (Some 8192) 200 8 arena_marked = Ret p s'
      ∧ fresh s' = S (fresh arena_marked)
      ∧ _active s' = Some (fresh arena_marked)
      ∧ nxt (heap s') 0 = Some (fresh arena_marked)
      ∧ heap s' !! fresh arena_marked = Some nb
      ∧ 2 * 1024 ≤ capacity nb
      ∧ 200 + effective_alignment 8 ≤ capacity nb
      ∧ _block_size arena_marked ≤ capacity nb
      ∧ data nb ≤ p ∧ p + 200 ≤ end_ nb.
Proof.
  assert (Hwf : wf arena_marked).
  { refine (bool_decide_unpack _ _). vm_compute. exact I. }
  assert (Hbytes : 0 < 200 < 2 ^ 64) by lia.
  assert (Hal : 0 ≤ 8 < 2 ^ 64) by lia.
  assert (Hb : heap arena_marked !! 0%nat = Some (Block 4096 4996 5120 None 1024)).
  { vm_compute. reflexivity. }
  assert (Htry : try_alloc_at_active 200 (effective_alignment 8) arena_marked
                 = Ret 0 arena_marked).
  { vm_compute. reflexivity. }
  assert (Hno : 200 + effective_alignment 8 < 2 ^ 64).
  { vm_compute. reflexivity. }
  assert (Hcap : 0 ≤ 1024 * 2 < 2 ^ 64) by lia.
  assert (Hd : 0 < 8192) by lia.
  assert (Hfit : 8192 + Z.max (Z.max (wrap (1024 * 2)) (200 + effective_alignment 8))
                              (_block_size arena_marked) < 2 ^ 64).
  { vm_compute. reflexivity. }
  do 10 (split; [assumption || reflexivity|]).
  exact (growth_creates_one_block arena_marked arena_marked 200 8 8192 0
           (Block 4096 4996 5120 None 1024)
           Hwf Hbytes Hal eq_refl Hb Htry Hno Hcap Hd Hfit).
Defined.

Lemma failed_growth_leaves_arena_witness :
  wf arena_marked ∧ 0 < 200 < 2 ^ 64 ∧ 0 ≤ 8 < 2 ^ 64
  ∧ _active arena_marked = Some 0%nat
  ∧ heap arena_marked !! 0%nat = Some (Block 4096 4996 5120 None 1024)
  ∧ wrap (5120 - align_up 4996 (effective_alignment 8)) < 200
  ∧ (@None Z = None ∨ 2 ^ 64 ≤ 200 + effective_alignment 8)
  ∧ allocate_bytes None 200 8 arena_marked = Throw bad_alloc arena_marked.
Proof.
  assert (Hwf : wf arena_marked).
  { refine (bool_decide_unpack _ _). vm_compute. exact I. }
  assert (Hbytes : 0 < 200 < 2 ^ 64) by lia.
  assert (Hal : 0 ≤ 8 < 2 ^ 64) by lia.
  assert (Hb : heap arena_marked !! 0%nat = Some (Block 4096 4996 5120 None 1024)).
  { vm_compute. reflexivity. }
  assert (Hrej : wrap (5120 - align_up 4996 (effective_alignment 8)) < 200).
  { vm_compute. reflexivity. }
  assert (Hwhy : @None Z = None ∨ 2 ^ 64 ≤ 200 + effective_alignment 8).
  { left. reflexivity. }
  do 7 (split; [assumption || reflexivity|]).
  exact (failed_growth_leaves_arena None arena_marked 200 8 0
           (Block 4096 4996 5120 None 1024) Hwf Hbytes Hal eq_refl Hb Hrej Hwhy).
Defined.

Lemma attempt_stays_in_bounds_witness :
  _active arena_marked = Some 0%nat
  ∧ heap arena_marked !! 0%nat = Some (Block 4096 4996 5120 None 1024)
  ∧ 0 ≤ 4 < 64 ∧ 0 ≤ 100
  ∧ 0 ≤ 4096 ≤ 4996 ∧ 4996 ≤ 5120 < 2 ^ 64
  ∧ 4996 + 2 ^ 4 - 1 < 2 ^ 64
  ∧ align_up 4996 (2 ^ 4) ≤ 5120
  ∧ try_alloc_at_active 100 (2 ^ 4) arena_marked
    = Ret 5008 (Arena (<[0%nat := Block 4096 5108 5120 None 1024]> ∅)
                      1 1024 (Some 0%nat) (Some 0%nat))
  ∧ ((5008 = 0
      ∧ Arena (<[0%nat := Block 4096 5108 5120 None 1024]> ∅)
              1 1024 (Some 0%nat) (Some 0%nat) = arena_marked)
     ∨ (∃ b', heap (Arena (<[0%nat := Block 4096 5108 5120 None 1024]> ∅)
                          1 1024 (Some 0%nat) (Some 0%nat)) !! 0%nat = Some b'
          ∧ same_storage (Block 4096 4996 5120 None 1024) b'
          ∧ 4996 ≤ 5008 ∧ 5008 + 100 = cur b' ∧ cur b' ≤ end_ b')).
Proof.
  assert (Hb : heap arena_marked !! 0%nat = Some (Block 4096 4996 5120 None 1024)).
  { vm_compute. reflexivity. }
  assert (Hk : 0 ≤ 4 < 64) by lia.
  assert (Hbytes : 0 ≤ 100) by lia.
  assert (Hdata : 0 ≤ 4096 ≤ 4996) by lia.
  assert (Hend : 4996 ≤ 5120 < 2 ^ 64) by lia.
  assert (Hnowrap : 4996 + 2 ^ 4 - 1 < 2 ^ 64) by lia.
  assert (Hin : align_up 4996 (2 ^ 4) ≤ 5120).
  { vm_compute. discriminate. }
  assert (Htry : try_alloc_at_active 100 (2 ^ 4) arena_marked
                 = Ret 5008 (Arena (<[0%nat := Block 4096 5108 5120 None 1024]> ∅)
                                   1 1024 (Some 0%nat) (Some 0%nat))).
  { vm_compute. reflexivity. }
  split; [reflexivity|].
  do 8 (split; [assumption|]).
  exact (attempt_stays_in_bounds 100 4 5008 arena_marked _ 0
           (Block 4096 4996 5120 None 1024)
           eq_refl Hb Hk Hbytes Hdata Hend Hnowrap Hin Htry).
Defined.

Lemma replay_reproduces_addresses_witness :
  wf arena_marked
  ∧ create_marker arena_marked = Ret (Marker (Some 0%nat) 4996) arena_marked
  ∧ allocate_all [(100, 16); (8, 8)] arena_marked
    = Ret [5008; 5112]
          (Arena (<[0%nat := Block 4096 5120 5120 None 1024]> ∅)
                 1 1024 (Some 0%nat) (Some 0%nat))
  ∧ ∃ s2 s3,
      rollback_to (Marker (Some 0%nat) 4996)
        (Arena (<[0%nat := Block 4096 5120 5120 None 1024]> ∅)
               1 1024 (Some 0%nat) (Some 0%nat)) = Ret tt s2
      ∧ allocate_all [(100, 16); (8, 8)] s2 = Ret [5008; 5112] s3.
Proof.
  assert (Hwf : wf arena_marked).
  { refine (bool_decide_unpack _ _). vm_compute. exact I. }
  assert (Hm : create_marker arena_marked
               = Ret (Marker (Some 0%nat) 4996) arena_marked).
  { vm_compute. reflexivity. }
  assert (Hrun : allocate_all [(100, 16); (8, 8)] arena_marked
                 = Ret [5008; 5112]
                       (Arena (<[0%nat := Block 4096 5120 5120 None 1024]> ∅)
                              1 1024 (Some 0%nat) (Some 0%nat))).
  { vm_compute. reflexivity. }
  split; [exact Hwf|]. split; [exact Hm|]. split; [exact Hrun|].
  exact (replay_reproduces_addresses [(100, 16); (8, 8)] arena_marked _
           (Marker (Some 0%nat) 4996) [5008; 5112] Hwf Hm Hrun).
Defined.

Lemma failed_make_frees_its_region_witness :
  wf arena_marked
  ∧ make None 100 16 throwing_ctor arena_marked
    = Throw (ctor_failure (Z.to_nat 5008)) arena_marked
  ∧ ∃ p s'', throwing_ctor p = Some (Z.to_nat 5008)
      ∧ allocate_bytes None 100 16 arena_marked = Ret p s''.
Proof.
  assert (Hwf : wf arena_marked).
  { refine (bool_decide_unpack _ _). vm_compute. exact I. }
  assert (H : make None 100 16 throwing_ctor arena_marked
              = Throw (ctor_failure (Z.to_nat 5008)) arena_marked).
  { vm_compute. reflexivity. }
  split; [exact Hwf|]. split; [exact H|].
  exact (failed_make_frees_its_region 100 16 throwing_ctor (Z.to_nat 5008)
           arena_marked arena_marked Hwf H).
Defined.

